(* ===== verification/_CoqProject ===== *)
-Q . S2P
Prelude.v
Storage.v
Token.v
Spec.v
Invariant.v
Checked.v
Block.v
Events.v
DebugBlock.v
Refinement.v
Trace.v
Scenarios.v
