(* ===== verification/Prelude.v ===== *)
(** * A verification development for the Substrate [token] runtime module

    This development models [src/runtime/src/token.rs] of the repository
    (a minimal fungible-asset ledger written as a Substrate SRML pallet)
    and proves the properties that make it correct, together with the one
    place where it is not.

    ** The program
    The module has three storage items declared with [decl_storage!]
    (token.rs 78-87): [Balances : map (AssetId, AccountId) => Balance],
    [NextAssetId : AssetId] and [TotalSupply : map AssetId => Balance],
    all with a default value (an absent key reads zero).  Three
    dispatchables declared with [decl_module!] (token.rs 18-65) act on
    them: [issue] allocates the next asset id and credits the whole supply
    to the caller, [transfer] moves [amount] units from the caller to a
    target resolved by [T::Lookup], [destroy] takes the caller's whole
    balance and lowers the total supply.  Each first checks the origin
    with [ensure_signed] and deposits one event of [decl_event!]
    (token.rs 67-76).  The getters [balance] and [total_supply]
    (token.rs 90-101) read the storage.  The calls share no state but the
    storage, and the runtime applies them one at a time.

    ** Files, and which part of the code each models
    - [Prelude] (this file): the scope [ledger_scope]; [zget] ([m @@ k]),
      a read of a [gmap] with default 0, which is how a SRML storage map
      with a default value reads; [sum_where], the sum of the values under
      the keys a boolean predicate selects ("the sum over all accounts");
      [wrap], release-mode Rust arithmetic on [w] bits; [star], sequences
      of steps; the hint databases [ledger] and [ledger_rw] and the
      lemmas on maps, sums and wrap-around the other files share.
    - [Storage]: the SRML [StorageMap] calls the module makes ([insert],
      [mutate], [take]; [get] is [zget]) and [storage_equiv], the equality
      of two maps up to what [get] can see, with its [Equivalence] and
      [Proper] instances (an explicit zero entry and an absent key are
      equivalent).
    - [Token]: the module.  [Module Token] holds [State] (the record of
      the three storage items plus the system event log), [Origin],
      [Event], [Error] and the [Call] enum; the dispatch monad [Dispatch]
      (a state transformer returning [Ok] or [Err] whose [bind] keeps the
      writes made before an error, since the SRML executive of this
      Substrate version does not roll storage back); one definition per
      storage access of the source ([balances_get], [balances_insert],
      [balances_mutate], [balances_take], [next_asset_id],
      [next_asset_id_mutate], [total_supply_insert],
      [total_supply_mutate], [deposit_event], [ensure_signed],
      [lookup_target], [ensure]); [issue], [transfer] and [destroy]
      translated statement by statement; [dispatch] and the getters.  The
      configuration trait [Trait] becomes the section context: an account
      type with [EqDecision] and [Countable], the class [StaticLookup] for
      [T::Lookup] and the class [BalanceType] (the bit width of
      [T::Balance]).  After the module, the functional behaviour of each
      call on every branch ([*_run] lemmas), [state_equiv] (equality up to
      [storage_equiv]) and the theorems on success, rejection and order of
      checks.
    - [Spec]: the spec's store contract (its section 4.1) as the class
      [LedgerStore] with laws [LedgerStoreLaws], and the spec's atomic
      operations [spec_issue], [spec_transfer], [spec_destroy] written
      against the class, with their effects proved from the laws alone.
    - [Invariant]: the ledger invariant [inv] (every value in range of its
      Rust type, no holder or supply at ids at or above [NextAssetId], and
      supply = sum of balances for every asset), the step relations
      [step] (one extrinsic with well-typed arguments, [wf_call]) and
      [safe_step] (the same, where an [issue] does not hand out the last
      [u32]), reachability from [genesis], preservation, and what holds
      on every reachable state; [typed], the part of [inv] that says
      every stored value is one of its Rust type, which every call keeps
      on any state; the round trip of a transfer and its reverse.
    - [Checked]: the debug build of the same dispatchables, in which
      every [+=] and [-=] of token.rs is checked and an overflow panics
      ([CDispatch], whose [None] is the panic that abandons the block;
      [checked_add], [checked_sub]; [issue_checked],
      [transfer_checked], [destroy_checked], [dispatch_checked]), and
      [panics], the exact condition under which a call overflows.
    - [Block]: the SRML executive's loop over a block, [apply_extrinsics]
      (each extrinsic dispatched on the state the previous one left, a
      rejection not aborting the block; modelled from the spec, since the
      executive is not code of this repository), and footprints: the
      balance entries and supplies a call reads or writes ([local],
      [call_fp]); [burn_block], one [destroy] per holder of an asset.
    - [Refinement]: the module's storage as an instance of [LedgerStore]
      (the laws discharged), and the theorem that every call refines the
      spec's operation on states satisfying [inv].
    - [Events]: the event log read as an audit trail: [balance_from_log]
      and [supply_from_log] sum the changes the [Issued], [Transferred]
      and [Destroyed] events record.
    - [DebugBlock]: the executive's loop in a debug build,
      [apply_extrinsics_checked], where a panicking extrinsic abandons
      the whole block.
    - [Trace]: the spec's run of a block ([spec_run], each extrinsic
      routed to the spec's atomic operation) and the lock-step
      simulation between it and [apply_extrinsics].
    - [Scenarios]: the module at [T::Balance = u128], [nat] accounts and
      [IdentityLookup]: concrete states built by the spec's scenarios,
      the witnesses of the theorems with hypotheses, and the two
      behaviours that depart from the spec.

    ** What the theorems show
    - Conservation and its invariant ([Invariant.conservation],
      [Invariant.safe_step_preserves_inv]), the freshness of unissued ids,
      the monotonicity of [NextAssetId] and the uniqueness of issued ids.
    - Functional behaviour of each call: when it succeeds
      ([Token.transfer_ok_iff], [Token.destroy_ok_iff],
      [Token.issue_success]), the order of its checks
      ([Token.transfer_errors]), and its exact effect on a reachable state
      ([Invariant.transfer_moves_amount], [Invariant.destroy_burns_balance]).
    - Errors: a rejected call changes nothing any read can observe
      ([Token.dispatch_err_equiv]).
    - Bounds: on reachable states no [+] or [-] on balances wraps
      ([Invariant.balances_bounded]).
    - Blocks and ordering: two [transfer]
      or [destroy] extrinsics with disjoint footprints commute within a
      block ([Block.extrinsics_commute]), by way of the generic
      [local_commute].
    - Refinement: the code implements the spec's operations
      ([Refinement.dispatch_refines]), and whole blocks of it the spec's
      run of the block ([Trace.block_refines]), except at the last [u32]
      id ([Refinement.issue_exhaustion]).
    - Round trip: a transfer followed by the reverse transfer restores the
      ledger ([Invariant.transfer_roundtrip]).
    - Build profiles: on typed states the debug build is the release
      build except exactly where [panics] holds
      ([Checked.dispatch_checked_run]); it never panics on reachable
      states ([Checked.debug_build_never_panics]); it panics on [issue]
      exactly at the last [u32] id, where release wraps
      ([Checked.issue_checked_panics_iff]).
    - Events: on every reachable state the log alone determines every
      balance and supply ([Events.log_reconstructs_ledger]); over any
      block the log gains one event per success and none per rejection
      ([Events.block_events_count]).
    - Debug-build blocks: from reachable states a block runs in the
      debug build exactly as in release ([DebugBlock.debug_block_agrees]).
    - More round trips and ordering: [issue] then [destroy] of the new
      class restores the ledger ([Invariant.issue_destroy_roundtrip]);
      [issue] commutes with calls whose footprint avoids the fresh id
      ([Block.issue_commutes]).
    - Liveness: from every reachable state the holders of an asset can
      burn all of it in one block ([Block.supply_can_be_burned]).
    - Findings: [NextAssetId += 1] wraps after 2^32 issues and the next
      [issue] re-issues asset 0 while others still hold it, breaking
      conservation on a state reachable from genesis
      ([Scenarios.next_asset_id_wrap_breaks_conservation]); a rejected
      [destroy] still removes the caller's stored zero entry
      ([Scenarios.destroy_rejected_still_writes]).

    ** Bounds and fuel
    No function of the module loops, so no definition needs fuel: every
    call is one pass over at most three storage writes, and every
    definition computes ([Scenarios] evaluates them by [vm_compute]).
    The only recursions, the executive's loop [apply_extrinsics] and the
    spec's [spec_run], are structural on the list of extrinsics, so
    their totality is by construction and no termination theorem is
    stated.
    Integers are [Z] with their width written out: [AssetId] is [u32]
    ([asset_id_bits = 32]); [T::Balance] has [balance_bits] bits (128 in
    [Scenarios]).  A Substrate runtime is built in release mode, where
    [+=] and [-=] wrap, so [Token] wraps them with [wrap]; [Checked]
    models the debug build, where they panic.  The
    reachable-state theorems assume [id_available]: an [issue] runs while
    [NextAssetId + 1 < 2^32].  That hypothesis is necessary, not a
    convenience: [Scenarios] shows conservation failing without it.

    ** Not modelled
    The SCALE codec and [#[compact]] decoding (calls are taken with
    decoded arguments, whose Rust types [wf_call] states), transaction
    signing, fees and weights (only the [Origin] value that
    [ensure_signed] inspects, and the executive's in-order loop over a
    block, are modelled), event delivery to observers,
    and the account-index module behind [T::Lookup] (an abstract partial
    function).  None of these is code of this repository: the codec and
    the executive are generated or provided by the SRML framework, and
    the account index is another module; what token.rs hands them or
    takes from them is modelled at the boundary.  The lines of token.rs
    no definition translates are the [use] imports, the [Trait]
    declaration's [type Event: From<Event<Self>> + Into<...>] (the
    conversion of the module's event into the runtime's, modelled as
    appending the module's event itself) and the macro headers.

    ** What is left
    [issue] against a call on the id it hands out does not commute, even
    up to renaming the id: the call sees an empty asset in one order and
    the new class in the other, so [Block.issue_commutes] states the
    commutation where it holds.  No termination theorem is stated: the
    module has no loop, and the only recursions of the development
    ([apply_extrinsics], [apply_extrinsics_checked], [spec_run]) are
    structural on the list of extrinsics, so every definition is total by
    construction.

    This file holds the shared notation, definitions and lemmas. *)

From stdpp Require Export base gmap.
From Stdlib Require Export ZArith Lia.

Declare Scope ledger_scope.
Delimit Scope ledger_scope with ledger.
Open Scope Z_scope.

(** ** Maps with a default value *)

Section ZMaps.
Context {K : Type} `{Countable K}.

(** A read of a SRML storage map whose value type has default [0]. *)
Definition zget (m : gmap K Z) (k : K) : Z := default 0 (m !! k).

(** The sum of the values stored under the keys that satisfy [P]. *)
Definition sum_where (P : K -> bool) (m : gmap K Z) : Z :=
  map_fold (fun k v acc => if P k then v + acc else acc) 0 m.

(** All values of a map lie in the range of an unsigned [w]-bit type. *)
Definition map_in_range (w : Z) (m : gmap K Z) : Prop :=
  map_Forall (fun _ v => 0 <= v < 2 ^ w) m.
End ZMaps.

#[global] Arguments zget : simpl never.
#[global] Arguments sum_where : simpl never.

Notation "m @@ k" := (zget m k) (at level 20, no associativity) : ledger_scope.
Open Scope ledger_scope.

(** ** Unsigned machine arithmetic *)

(** Reduction modulo [2^w]: the result of a release-mode Rust operation on
    an unsigned [w]-bit integer. *)
Definition wrap (w z : Z) : Z := z mod 2 ^ w.

#[global] Arguments wrap : simpl never.

Definition in_range (w z : Z) : bool := (0 <=? z) && (z <? 2 ^ w).

Create HintDb ledger.
Create Rewrite HintDb ledger_rw.

Section ZMapLemmas.
Context {K : Type} `{Countable K}.
Implicit Types (m : gmap K Z) (P : K -> bool).

Lemma zget_empty k : (∅ : gmap K Z) @@ k = 0.
Proof. reflexivity. Qed.

Lemma zget_insert_eq m k v : (<[k:=v]> m) @@ k = v.
Proof. unfold zget. by rewrite lookup_insert_eq. Qed.

Lemma zget_insert_ne m k k' v : k <> k' -> (<[k:=v]> m) @@ k' = m @@ k'.
Proof. intros. unfold zget. by rewrite lookup_insert_ne. Qed.

Lemma zget_delete_eq m k : (delete k m) @@ k = 0.
Proof. unfold zget. by rewrite lookup_delete_eq. Qed.

Lemma zget_delete_ne m k k' : k <> k' -> (delete k m) @@ k' = m @@ k'.
Proof. intros. unfold zget. by rewrite lookup_delete_ne. Qed.

Lemma zget_insert m k k' v :
  (<[k:=v]> m) @@ k' = if decide (k = k') then v else m @@ k'.
Proof.
  case_decide; subst; [apply zget_insert_eq | by apply zget_insert_ne].
Qed.

Lemma zget_delete m k k' :
  (delete k m) @@ k' = if decide (k = k') then 0 else m @@ k'.
Proof.
  case_decide; subst; [apply zget_delete_eq | by apply zget_delete_ne].
Qed.

Lemma zget_Some m k v : m !! k = Some v -> m @@ k = v.
Proof. unfold zget. by intros ->. Qed.

Lemma zget_None m k : m !! k = None -> m @@ k = 0.
Proof. unfold zget. by intros ->. Qed.

(** The fold of [sum_where] commutes, so [map_fold_insert_L] applies. *)
Local Lemma sum_step_comm P (j1 j2 : K) (z1 z2 y : Z) :
  (if P j1 then z1 + (if P j2 then z2 + y else y) else (if P j2 then z2 + y else y)) =
  (if P j2 then z2 + (if P j1 then z1 + y else y) else (if P j1 then z1 + y else y)).
Proof. destruct (P j1), (P j2); lia. Qed.

Lemma sum_where_empty P : sum_where P ∅ = 0.
Proof. reflexivity. Qed.

Lemma sum_where_insert_fresh P m k v :
  m !! k = None ->
  sum_where P (<[k:=v]> m) = (if P k then v else 0) + sum_where P m.
Proof.
  intros Hk. unfold sum_where. rewrite map_fold_insert_L; auto.
  - destruct (P k); lia.
  - intros. apply sum_step_comm.
Qed.

Lemma sum_where_delete P m k :
  sum_where P (delete k m) = sum_where P m - (if P k then m @@ k else 0).
Proof.
  destruct (m !! k) as [x|] eqn:Hk.
  - rewrite (zget_Some _ _ _ Hk). unfold sum_where.
    rewrite (map_fold_delete_L _ _ k x m); auto.
    + destruct (P k); lia.
    + intros. apply sum_step_comm.
  - rewrite delete_id by done. rewrite (zget_None _ _ Hk). destruct (P k); lia.
Qed.

Lemma sum_where_insert P m k v :
  sum_where P (<[k:=v]> m) =
  sum_where P m - (if P k then m @@ k else 0) + (if P k then v else 0).
Proof.
  rewrite <- insert_delete_eq, sum_where_insert_fresh by apply lookup_delete_eq.
  rewrite sum_where_delete. lia.
Qed.

(** [sum_where] only depends on what the map reads under [P]. *)
Lemma sum_where_ext P m1 m2 :
  (forall k, P k = true -> m1 @@ k = m2 @@ k) ->
  sum_where P m1 = sum_where P m2.
Proof.
  revert m2. induction m1 as [|i x m Hi IH] using map_ind; intros m2 Hext.
  - induction m2 as [|j y m2 Hj IH2] using map_ind; [done|].
    assert (Hy : P j = true -> y = 0).
    { intros Hp. specialize (Hext j Hp). by rewrite zget_empty, zget_insert_eq in Hext. }
    rewrite sum_where_insert_fresh by done. rewrite <- IH2.
    + destruct (P j); [rewrite Hy by done|]; done.
    + intros k Hk. rewrite (Hext k Hk), zget_insert.
      case_decide; subst; [rewrite (zget_None _ _ Hj); by apply Hy | done].
  - assert (Hx : P i = true -> x = m2 @@ i).
    { intros Hp. rewrite <- (Hext i Hp). by rewrite zget_insert_eq. }
    rewrite sum_where_insert_fresh by done.
    rewrite (IH (delete i m2)), sum_where_delete.
    + destruct (P i); [rewrite <- Hx by done|]; lia.
    + intros k Hk. rewrite zget_delete.
      case_decide; subst; [by rewrite zget_None|].
      rewrite <- Hext by done. by rewrite zget_insert_ne.
Qed.

Lemma sum_where_zero P m :
  (forall k, P k = true -> m @@ k = 0) -> sum_where P m = 0.
Proof. intros Hz. rewrite (sum_where_ext P m ∅); [done|]. intros. by rewrite Hz. Qed.

(** A single nonnegative entry is bounded by the sum. *)
Lemma sum_where_ge_entry P m k :
  map_Forall (fun _ v => 0 <= v) m -> P k = true -> m @@ k <= sum_where P m.
Proof.
  intros Hpos Hk.
  enough (Hge : 0 <= sum_where P (delete k m))
    by (rewrite sum_where_delete, Hk in Hge; lia).
  assert (Hd : map_Forall (fun _ v => 0 <= v) (delete k m))
    by (apply map_Forall_delete, Hpos).
  clear Hk Hpos. induction (delete k m) as [|i x m' Hi IH] using map_ind; [done|].
  apply map_Forall_insert in Hd as [Hx Hd]; [|done].
  rewrite sum_where_insert_fresh by done. destruct (P i); specialize (IH Hd); lia.
Qed.

Lemma map_in_range_insert w m k v :
  map_in_range w m -> 0 <= v < 2 ^ w -> map_in_range w (<[k:=v]> m).
Proof. intros. by apply map_Forall_insert_2. Qed.

Lemma map_in_range_delete w m k :
  map_in_range w m -> map_in_range w (delete k m).
Proof. apply map_Forall_delete. Qed.

Lemma map_in_range_zget w m k :
  map_in_range w m -> 0 <= w -> 0 <= m @@ k < 2 ^ w.
Proof.
  intros Hm Hw. unfold zget. destruct (m !! k) eqn:E; simpl.
  - exact (Hm k z E).
  - pose proof (Z.pow_pos_nonneg 2 w ltac:(lia) Hw). lia.
Qed.

Lemma map_in_range_nonneg w m :
  map_in_range w m -> map_Forall (fun _ v => 0 <= v) m.
Proof. intros Hm k v Hk. specialize (Hm k v Hk). simpl in Hm. lia. Qed.

(** Two distinct nonnegative entries are bounded by the sum. *)
Lemma sum_where_ge_two P m k1 k2 :
  map_Forall (fun _ v => 0 <= v) m -> P k1 = true -> P k2 = true -> k1 <> k2 ->
  m @@ k1 + m @@ k2 <= sum_where P m.
Proof.
  intros Hpos H1 H2 Hne.
  pose proof (sum_where_ge_entry P (delete k1 m) k2 (map_Forall_delete _ _ _ Hpos) H2) as Hle.
  rewrite zget_delete_ne, sum_where_delete, H1 in Hle by done. lia.
Qed.
End ZMapLemmas.

(** ** Sequences of transitions *)

Section Star.
Context {A : Type} (R : A -> A -> Prop).

Inductive star : A -> A -> Prop :=
| star_refl a : star a a
| star_step a b c : R a b -> star b c -> star a c.

Lemma star_one a b : R a b -> star a b.
Proof. eauto using star. Qed.

Lemma star_trans a b c : star a b -> star b c -> star a c.
Proof. induction 1; eauto using star. Qed.

(** A property preserved by every step holds along every sequence. *)
Lemma star_invariant (I : A -> Prop) a b :
  (forall x y, I x -> R x y -> I y) -> I a -> star a b -> I b.
Proof. intros Hpres Ha Hs. induction Hs; eauto. Qed.
End Star.

Lemma star_mono {A} (R R' : A -> A -> Prop) a b :
  (forall x y, R x y -> R' x y) -> star R a b -> star R' a b.
Proof. intros HR Hs. induction Hs; eauto using star. Qed.


(** ** Wrap-around *)

Lemma wrap_small w z : 0 <= z < 2 ^ w -> wrap w z = z.
Proof. intros. unfold wrap. by apply Z.mod_small. Qed.

Lemma wrap_range w z : 0 <= w -> 0 <= wrap w z < 2 ^ w.
Proof.
  intros Hw. unfold wrap. apply Z.mod_pos_bound.
  apply Z.pow_pos_nonneg; lia.
Qed.

Lemma in_range_spec w z : in_range w z = true <-> 0 <= z < 2 ^ w.
Proof. unfold in_range. rewrite andb_true_iff, Z.leb_le, Z.ltb_lt. tauto. Qed.

#[export] Hint Rewrite @zget_insert_eq @zget_delete_eq : ledger_rw.
#[export] Hint Rewrite @zget_insert_ne @zget_delete_ne using (congruence || done) : ledger_rw.
#[export] Hint Resolve map_in_range_insert map_in_range_delete wrap_range : ledger.

(** Rewrite every read of an updated map whose keys are decided. *)
Ltac zget_simpl :=
  repeat first
    [ rewrite zget_insert_eq
    | rewrite zget_delete_eq
    | rewrite zget_insert_ne by congruence
    | rewrite zget_delete_ne by congruence ].
