(* ===== verification/Storage.v ===== *)
(** * SRML storage maps with a default value

    The storage items of [decl_storage!] in token.rs ([Balances] and
    [TotalSupply] are [map]s whose value type [T::Balance] has default 0)
    are read and written through the SRML [StorageMap] API: [get] returns
    the default for an absent key, [insert] stores a value (zero included),
    [mutate] is get-then-insert, [take] is get-then-remove.  A map is a
    [gmap] and [get] is [zget] of the prelude.

    Two maps are [storage_equiv] when every [get] agrees: an explicit zero
    entry and an absent key cannot be told apart by the module.  This file
    proves that every primitive, and [sum_where], respects it. *)

From S2P Require Import Prelude.
From Stdlib Require Import Morphisms.

Section StorageMap.
Context {K : Type} `{Countable K}.

(** [<Map>::insert(k, v)]. *)
Definition map_insert (k : K) (v : Z) (m : gmap K Z) : gmap K Z := <[k:=v]> m.

(** [<Map>::mutate(k, f)]: read with default, apply [f], then insert. *)
Definition map_mutate (k : K) (f : Z -> Z) (m : gmap K Z) : gmap K Z :=
  <[k := f (m @@ k)]> m.

(** [<Map>::take(k)]: the value read with default, and the key removed. *)
Definition map_take (k : K) (m : gmap K Z) : Z * gmap K Z :=
  (m @@ k, delete k m).

(** Observational equality of two storage maps. *)
Definition storage_equiv (m1 m2 : gmap K Z) : Prop :=
  forall k, m1 @@ k = m2 @@ k.
End StorageMap.

#[global] Arguments map_mutate : simpl never.
#[global] Arguments map_insert : simpl never.

Infix "≡ₛ" := storage_equiv (at level 70) : ledger_scope.

Section StorageLemmas.
Context {K : Type} `{Countable K}.
Implicit Types (m : gmap K Z).

#[global] Instance storage_equiv_equivalence : Equivalence (@storage_equiv K _ _).
Proof.
  split.
  - intros m k. reflexivity.
  - intros m1 m2 E k. by rewrite E.
  - intros m1 m2 m3 E1 E2 k. by rewrite E1, E2.
Qed.

#[global] Instance zget_proper : Proper (storage_equiv ==> eq ==> eq) (@zget K _ _).
Proof. intros m1 m2 E k ? <-. apply E. Qed.

#[global] Instance insert_storage_proper (k : K) (v : Z) :
  Proper (storage_equiv ==> storage_equiv) (map_insert k v).
Proof.
  intros m1 m2 E k'. unfold map_insert. rewrite !zget_insert. by case_decide.
Qed.

#[global] Instance delete_storage_proper (k : K) :
  Proper (storage_equiv ==> storage_equiv) (delete (M:=gmap K Z) k).
Proof. intros m1 m2 E k'. rewrite !zget_delete. by case_decide. Qed.

#[global] Instance mutate_storage_proper (k : K) (f : Z -> Z) :
  Proper (storage_equiv ==> storage_equiv) (map_mutate k f).
Proof.
  intros m1 m2 E k'. unfold map_mutate. rewrite !zget_insert, (E k). by case_decide.
Qed.

#[global] Instance sum_where_proper (P : K -> bool) :
  Proper (storage_equiv ==> eq) (sum_where P).
Proof. intros m1 m2 E. apply sum_where_ext. intros k _. apply E. Qed.

Lemma map_take_fst k m : (map_take k m).1 = m @@ k.
Proof. reflexivity. Qed.

(** Taking a key whose value reads zero changes nothing observable. *)
Lemma map_take_zero k m : m @@ k = 0 -> (map_take k m).2 ≡ₛ m.
Proof.
  intros Hz k'. simpl. rewrite zget_delete. case_decide; subst; auto.
Qed.

(** Removing a key and storing 0 under it cannot be told apart. *)
Lemma delete_equiv_insert_zero k m : delete k m ≡ₛ <[k:=0]> m.
Proof. intros k'. rewrite zget_delete, zget_insert. by case_decide. Qed.

Lemma map_take_proper k m1 m2 :
  m1 ≡ₛ m2 -> (map_take k m1).1 = (map_take k m2).1 /\ (map_take k m1).2 ≡ₛ (map_take k m2).2.
Proof. intros E. split; [apply E | by apply delete_storage_proper]. Qed.

Lemma map_mutate_zget k k' f m :
  (map_mutate k f m) @@ k' = if decide (k = k') then f (m @@ k) else m @@ k'.
Proof. apply zget_insert. Qed.

Lemma map_in_range_mutate w k f m :
  map_in_range w m -> 0 <= f (m @@ k) < 2 ^ w -> map_in_range w (map_mutate k f m).
Proof. apply map_in_range_insert. Qed.
End StorageLemmas.

#[export] Hint Resolve map_in_range_mutate : ledger.
