(* ===== verification/Token.v ===== *)
(** * The [token] module (src/runtime/src/token.rs)

    The state is the record of the module's storage items and of the
    system event log.  A dispatchable runs in the [Dispatch] monad: a
    state transformer that returns [Ok] or [Err].  The SRML executive of
    this Substrate version does not roll storage back when a call returns
    an error, so [bind] keeps the writes made before an error: the model
    makes no atomicity assumption of its own.

    The configuration trait [Trait] becomes three contexts: the account
    type ([system::Trait::AccountId], with decidable equality and
    [Countable] so that it can key a [gmap]), [T::Lookup] as the class
    [StaticLookup] and [T::Balance] as the class [BalanceType], an unsigned
    integer of [balance_bits] bits. *)

From S2P Require Import Prelude Storage.
From Stdlib Require Import String Morphisms.

(** [T::Balance: SimpleArithmetic]: an unsigned integer type of some width. *)
Class BalanceType := {
  balance_bits : Z;
  balance_bits_pos : 0 < balance_bits
}.

(** [T::Lookup: StaticLookup]: resolves a [Source] to an account, or fails. *)
Class StaticLookup (Source AccountId : Type) := {
  lookup : Source -> option AccountId
}.

(** [IdentityLookup]: the source is the account itself. *)
#[export] Instance IdentityLookup {A : Type} : StaticLookup A A := {| lookup := Some |}.

Module Token.

(** [type AssetId = u32]. *)
Definition AssetId := Z.
Definition asset_id_bits : Z := 32.

Section Module.
Context {AccountId : Type} `{Countable AccountId}.
Context {Source : Type} `{!StaticLookup Source AccountId}.
Context `{!BalanceType}.

(** [system::RawOrigin]. *)
Inductive Origin :=
| Root
| Signed (who : AccountId)
| NoOrigin.

(** [decl_event!] (token.rs 67-76). *)
Inductive Event :=
| Issued (id : AssetId) (who : AccountId) (total : Z)
| Transferred (id : AssetId) (from to : AccountId) (amount : Z)
| Destroyed (id : AssetId) (who : AccountId) (balance : Z).

(** The rejections a call can return: [ensure_signed], the [?] on
    [T::Lookup::lookup] and the two [ensure!] of [transfer], the one of
    [destroy]. *)
Inductive Error :=
| BadOrigin
| LookupFailed
| ZeroAmount
| InsufficientBalance
| ZeroBalance.

#[global] Instance Error_eq_dec : EqDecision Error.
Proof. solve_decision. Defined.

(** The [&'static str] each rejection carries in the source. *)
Definition error_message (e : Error) : string :=
  match e with
  | BadOrigin => "bad origin: expected to be a signed origin"
  | LookupFailed => "invalid account index"
  | ZeroAmount => "transfer amount should be non-zero"
  | InsufficientBalance =>
      "origin account balance must be greater than or equal to the transfer amount"
  | ZeroBalance => "origin balance should be non-zero"
  end%string.

(** [decl_storage!] (token.rs 78-87), and the system module's event log. *)
Record State := mkState {
  Balances : gmap (AssetId * AccountId) Z;
  NextAssetId : AssetId;
  TotalSupply : gmap AssetId Z;
  events : list Event
}.

(** Storage at genesis: every item at its default. *)
Definition genesis : State :=
  {| Balances := ∅; NextAssetId := 0; TotalSupply := ∅; events := [] |}.

(** ** The dispatch monad *)

Inductive result (A : Type) :=
| Ok (a : A)
| Err (e : Error).
Arguments Ok {A} a.
Arguments Err {A} e.

Definition Dispatch (A : Type) := State -> State * result A.

Definition ret {A} (a : A) : Dispatch A := fun s => (s, Ok a).

(** Non-transactional sequencing: an error keeps the writes made so far. *)
Definition bind {A B} (c : Dispatch A) (k : A -> Dispatch B) : Dispatch B :=
  fun s => match c s with
           | (s', Ok a) => k a s'
           | (s', Err e) => (s', Err e)
           end.

Definition fail {A} (e : Error) : Dispatch A := fun s => (s, Err e).

(** [ensure!(cond, msg)]. *)
Definition ensure (cond : bool) (e : Error) : Dispatch unit :=
  if cond then ret tt else fail e.

Definition modify (f : State -> State) : Dispatch unit := fun s => (f s, Ok tt).
Definition gets {A} (f : State -> A) : Dispatch A := fun s => (s, Ok (f s)).
End Module.

Arguments Ok {A} a.
Arguments Err {A} e.
Arguments Root {AccountId}.
Arguments NoOrigin {AccountId}.

Declare Scope dispatch_scope.
Delimit Scope dispatch_scope with dispatch.
Notation "x <- c ;; k" := (bind c (fun x => k))
  (at level 100, c at next level, k at level 200) : dispatch_scope.
Notation "c ;; k" := (bind c (fun _ => k)) : dispatch_scope.

Section Calls.
Context {AccountId : Type} `{Countable AccountId}.
Context {Source : Type} `{!StaticLookup Source AccountId}.
Context `{!BalanceType}.
Local Open Scope dispatch_scope.

Local Abbreviation State := (@State AccountId _ _).
Local Abbreviation Dispatch := (@Dispatch AccountId _ _).

(** ** Storage accessors *)

Definition set_Balances (m : gmap (AssetId * AccountId) Z) (s : State) : State :=
  mkState m s.(NextAssetId) s.(TotalSupply) s.(events).
Definition set_NextAssetId (n : AssetId) (s : State) : State :=
  mkState s.(Balances) n s.(TotalSupply) s.(events).
Definition set_TotalSupply (m : gmap AssetId Z) (s : State) : State :=
  mkState s.(Balances) s.(NextAssetId) m s.(events).

(** [system::ensure_signed]. *)
Definition ensure_signed (o : Origin) : Dispatch AccountId :=
  match o with
  | Signed who => ret who
  | _ => fail BadOrigin
  end.

(** [T::Lookup::lookup(target)?]. *)
Definition lookup_target (target : Source) : Dispatch AccountId :=
  match lookup target with
  | Some who => ret who
  | None => fail LookupFailed
  end.

(** [Self::deposit_event]: append to the system event log. *)
Definition deposit_event (e : Event) : Dispatch unit :=
  modify (fun s => mkState s.(Balances) s.(NextAssetId) s.(TotalSupply) (s.(events) ++ [e])).

(** [Self::next_asset_id()] and [<NextAssetId<T>>::mutate]. *)
Definition next_asset_id : Dispatch AssetId := gets NextAssetId.
Definition next_asset_id_mutate (f : AssetId -> AssetId) : Dispatch unit :=
  modify (fun s => set_NextAssetId (f s.(NextAssetId)) s).

(** [<Balances<T>>::get/insert/mutate/take]. *)
Definition balances_get (k : AssetId * AccountId) : Dispatch Z :=
  gets (fun s => s.(Balances) @@ k).
Definition balances_insert (k : AssetId * AccountId) (v : Z) : Dispatch unit :=
  modify (fun s => set_Balances (map_insert k v s.(Balances)) s).
Definition balances_mutate (k : AssetId * AccountId) (f : Z -> Z) : Dispatch unit :=
  modify (fun s => set_Balances (map_mutate k f s.(Balances)) s).
Definition balances_take (k : AssetId * AccountId) : Dispatch Z :=
  fun s => ((set_Balances (map_take k s.(Balances)).2 s), Ok (map_take k s.(Balances)).1).

(** [<TotalSupply<T>>::insert/mutate]. *)
Definition total_supply_insert (id : AssetId) (v : Z) : Dispatch unit :=
  modify (fun s => set_TotalSupply (map_insert id v s.(TotalSupply)) s).
Definition total_supply_mutate (id : AssetId) (f : Z -> Z) : Dispatch unit :=
  modify (fun s => set_TotalSupply (map_mutate id f s.(TotalSupply)) s).

(** ** The dispatchables (token.rs 25-63) *)

(** [fn issue(origin, total)]: [*id += 1] on a [u32] wraps. *)
Definition issue (origin : Origin) (total : Z) : Dispatch unit :=
  origin <- ensure_signed origin ;;
  id <- next_asset_id ;;
  next_asset_id_mutate (fun id => wrap asset_id_bits (id + 1)) ;;
  balances_insert (id, origin) total ;;
  total_supply_insert id total ;;
  deposit_event (Issued id origin total).

(** [fn transfer(origin, id, target, amount)]. *)
Definition transfer (origin : Origin) (id : AssetId) (target : Source) (amount : Z)
  : Dispatch unit :=
  origin <- ensure_signed origin ;;
  let origin_account := (id, origin) in
  origin_balance <- balances_get origin_account ;;
  target <- lookup_target target ;;
  ensure (negb (amount =? 0)) ZeroAmount ;;
  ensure (amount <=? origin_balance) InsufficientBalance ;;
  deposit_event (Transferred id origin target amount) ;;
  balances_insert origin_account (wrap balance_bits (origin_balance - amount)) ;;
  balances_mutate (id, target) (fun balance => wrap balance_bits (balance + amount)).

(** [fn destroy(origin, id)]: the balance is taken before it is checked. *)
Definition destroy (origin : Origin) (id : AssetId) : Dispatch unit :=
  origin <- ensure_signed origin ;;
  balance <- balances_take (id, origin) ;;
  ensure (negb (balance =? 0)) ZeroBalance ;;
  total_supply_mutate id (fun total_supply => wrap balance_bits (total_supply - balance)) ;;
  deposit_event (Destroyed id origin balance).

(** ** The getters (token.rs 93-101) *)

Definition balance (s : State) (id : AssetId) (who : AccountId) : Z :=
  s.(Balances) @@ (id, who).

Definition total_supply (s : State) (id : AssetId) : Z :=
  s.(TotalSupply) @@ id.

(** ** The [Call] enum that [decl_module!] generates, and its dispatch *)

Inductive Call :=
| Call_issue (total : Z)
| Call_transfer (id : AssetId) (target : Source) (amount : Z)
| Call_destroy (id : AssetId).

Definition dispatch (origin : Origin) (c : Call) : Dispatch unit :=
  match c with
  | Call_issue total => issue origin total
  | Call_transfer id target amount => transfer origin id target amount
  | Call_destroy id => destroy origin id
  end.
End Calls.

End Token.

(** Unfold a call down to its storage writes. *)
Ltac unfold_dispatch :=
  cbv beta iota zeta delta [Token.dispatch Token.issue Token.transfer Token.destroy
    Token.bind Token.ret Token.fail Token.ensure Token.modify Token.gets
    Token.ensure_signed Token.lookup_target Token.deposit_event
    Token.next_asset_id Token.next_asset_id_mutate Token.balances_get
    Token.balances_insert Token.balances_mutate Token.balances_take
    Token.total_supply_insert Token.total_supply_mutate] in *.

(** Project the fields of a state built by a call. *)
Ltac state_simpl :=
  cbn [fst snd Token.Balances Token.NextAssetId Token.TotalSupply Token.events
       Token.set_Balances Token.set_NextAssetId Token.set_TotalSupply] in *.

(** ** Functional behaviour of the calls

    For each dispatchable, its outcome on every branch, in the order in
    which the source checks its conditions, and what it writes.  Errors:
    [transfer] and [issue] write nothing before they can fail; [destroy]
    removes the caller's entry before its check, which changes the state
    but not what any read observes ([state_equiv]).  Every call respects
    [state_equiv]: the module cannot tell an explicit zero entry from an
    absent one. *)

Import Token.

Section Facts.
Context {AccountId : Type} `{Countable AccountId}.
Context {Source : Type} `{!StaticLookup Source AccountId}.
Context `{!BalanceType}.

Local Abbreviation State := (@State AccountId _ _).
Local Abbreviation Origin := (@Origin AccountId).
Implicit Types (s : State) (who : AccountId) (o : Origin) (id : AssetId) (src : Source).

(** ** Observational equivalence of states *)

Definition state_equiv (s1 s2 : State) : Prop :=
  s1.(Balances) ≡ₛ s2.(Balances) /\ s1.(NextAssetId) = s2.(NextAssetId) /\
  s1.(TotalSupply) ≡ₛ s2.(TotalSupply) /\ s1.(events) = s2.(events).

#[global] Instance state_equiv_equivalence : Equivalence state_equiv.
Proof.
  split.
  - intros s. repeat split; reflexivity.
  - intros s1 s2 (?&?&?&?). repeat split; by symmetry.
  - intros s1 s2 s3 (?&?&?&?) (?&?&?&?). repeat split; etrans; eauto.
Qed.

(** ** Run lemmas: each call reduced to its branches *)

Lemma ensure_signed_unsigned {A} o (k : AccountId -> Dispatch A) s :
  (forall who, o <> Signed who) -> bind (ensure_signed o) k s = (s, Err BadOrigin).
Proof. intros Ho. destruct o; [done| |done]. by destruct (Ho who). Qed.

Lemma issue_run who total s :
  issue (Signed who) total s =
  (mkState (<[(s.(NextAssetId), who) := total]> s.(Balances))
           (wrap asset_id_bits (s.(NextAssetId) + 1))
           (<[s.(NextAssetId) := total]> s.(TotalSupply))
           (s.(events) ++ [Issued s.(NextAssetId) who total]), Ok tt).
Proof. reflexivity. Qed.

(** The state after a successful transfer. *)
Definition transfer_post s id who tgt amount : State :=
  mkState (map_mutate (id, tgt) (fun b => wrap balance_bits (b + amount))
             (<[(id, who) := wrap balance_bits (balance s id who - amount)]> s.(Balances)))
          s.(NextAssetId) s.(TotalSupply)
          (s.(events) ++ [Transferred id who tgt amount]).

Lemma transfer_run who id src amount s :
  transfer (Signed who) id src amount s =
  match lookup src with
  | None => (s, Err LookupFailed)
  | Some tgt =>
      if amount =? 0 then (s, Err ZeroAmount)
      else if amount <=? balance s id who then (transfer_post s id who tgt amount, Ok tt)
      else (s, Err InsufficientBalance)
  end.
Proof.
  unfold_dispatch. destruct (lookup src); [|done].
  destruct (amount =? 0); [done|]. simpl. by destruct (amount <=? _).
Qed.

(** The state after [take]: the caller's entry is gone. *)
Definition destroy_taken s id who : State :=
  set_Balances (delete (id, who) s.(Balances)) s.

Lemma destroy_run who id s :
  destroy (Signed who) id s =
  if balance s id who =? 0 then (destroy_taken s id who, Err ZeroBalance)
  else (mkState (delete (id, who) s.(Balances)) s.(NextAssetId)
          (map_mutate id (fun ts => wrap balance_bits (ts - balance s id who)) s.(TotalSupply))
          (s.(events) ++ [Destroyed id who (balance s id who)]), Ok tt).
Proof. unfold_dispatch. by destruct (_ =? 0). Qed.
(** ** Reads after a call *)

Lemma transfer_post_balance s id who tgt amount id' c :
  balance (transfer_post s id who tgt amount) id' c =
  if decide ((id, tgt) = (id', c)) then
    wrap balance_bits ((if decide (who = tgt) then wrap balance_bits (balance s id who - amount)
                        else balance s id tgt) + amount)
  else if decide ((id, who) = (id', c)) then wrap balance_bits (balance s id who - amount)
  else balance s id' c.
Proof.
  unfold balance, transfer_post; simpl. rewrite map_mutate_zget, !zget_insert.
  repeat case_decide; simplify_eq; done.
Qed.

Lemma destroy_post_balance s id who id' c :
  (delete (id, who) s.(Balances)) @@ (id', c) =
  if decide ((id, who) = (id', c)) then 0 else balance s id' c.
Proof. apply zget_delete. Qed.

(** [take] of an entry that reads zero leaves an equivalent state. *)
Lemma destroy_taken_equiv s id who :
  balance s id who = 0 -> state_equiv (destroy_taken s id who) s.
Proof. intros Hz. repeat split; simpl; try reflexivity. by apply map_take_zero. Qed.

(** ** [transfer] *)

(** C3: [transfer] succeeds exactly when the origin is signed, the target
    resolves, the amount is non-zero and the caller holds at least it. *)
Theorem transfer_ok_iff o id src amount s :
  (transfer o id src amount s).2 = Ok tt <->
  exists who tgt, o = Signed who /\ lookup src = Some tgt /\
                  amount <> 0 /\ amount <= balance s id who.
Proof.
  destruct o as [|who|]; simpl;
    try (split; [discriminate | intros (? & ? & ? & _); discriminate]).
  rewrite transfer_run. destruct (lookup src) as [tgt|].
  - destruct (Z.eqb_spec amount 0); [split; [discriminate|naive_solver]|].
    destruct (Z.leb_spec amount (balance s id who)); simpl;
      [split; [eauto 10|done] | split; [discriminate|naive_solver lia]].
  - split; [discriminate|naive_solver].
Qed.

(** C24: the checks of [transfer] come in the source's order, and each
    rejection returns the state unchanged. *)
Theorem transfer_errors o id src amount s :
  ((forall who, o <> Signed who) -> transfer o id src amount s = (s, Err BadOrigin)) /\
  (forall who, o = Signed who -> lookup src = None ->
     transfer o id src amount s = (s, Err LookupFailed)) /\
  (forall who tgt, o = Signed who -> lookup src = Some tgt -> amount = 0 ->
     transfer o id src amount s = (s, Err ZeroAmount)) /\
  (forall who tgt, o = Signed who -> lookup src = Some tgt -> amount <> 0 ->
     balance s id who < amount ->
     transfer o id src amount s = (s, Err InsufficientBalance)).
Proof.
  repeat split.
  - intros Ho. by apply ensure_signed_unsigned.
  - intros who -> Hl. by rewrite transfer_run, Hl.
  - intros who tgt -> Hl ->. by rewrite transfer_run, Hl.
  - intros who tgt -> Hl Ha Hb. rewrite transfer_run, Hl.
    destruct (Z.eqb_spec amount 0); [done|]. destruct (Z.leb_spec amount (balance s id who)); [lia|done].
Qed.

Lemma transfer_err_state o id src amount s e :
  (transfer o id src amount s).2 = Err e -> (transfer o id src amount s).1 = s.
Proof.
  destruct o as [|who|]; simpl; try done. rewrite transfer_run.
  destruct (lookup src); [|done]. destruct (_ =? 0); [done|]. by destruct (_ <=? _).
Qed.

(** On success: the caller loses [amount], the target gains it (the same
    account, for a self-transfer, keeps its balance), every other
    balance, every supply and the next id are unchanged, and the event
    [Transferred] is appended. *)
Lemma transfer_success o id src amount s s' :
  transfer o id src amount s = (s', Ok tt) ->
  exists who tgt, o = Signed who /\ lookup src = Some tgt /\
    amount <> 0 /\ amount <= balance s id who /\
    s' = transfer_post s id who tgt amount.
Proof.
  destruct o as [|who|]; try discriminate. rewrite transfer_run.
  destruct (lookup src) as [tgt|]; [|discriminate].
  destruct (Z.eqb_spec amount 0); [discriminate|].
  destruct (Z.leb_spec amount (balance s id who)); [|discriminate].
  intros [= <-]. eauto 10.
Qed.
(** ** [destroy] *)

(** C26: [destroy] succeeds exactly when the origin is signed and the
    caller's balance of [id] is non-zero. *)
Theorem destroy_ok_iff o id s :
  (destroy o id s).2 = Ok tt <-> exists who, o = Signed who /\ balance s id who <> 0.
Proof.
  destruct o as [|who|]; simpl; try (split; [discriminate | intros (? & ? & _); discriminate]).
  rewrite destroy_run. destruct (Z.eqb_spec (balance s id who) 0); simpl.
  - split; [discriminate | intros (? & [= <-] & ?); done].
  - split; [eauto | done].
Qed.

(** A rejected [destroy] has removed the caller's entry, which read zero. *)
Lemma destroy_err_equiv o id s e :
  (destroy o id s).2 = Err e -> state_equiv (destroy o id s).1 s.
Proof.
  destruct o as [|who|]; simpl; try (intros; reflexivity).
  rewrite destroy_run. destruct (Z.eqb_spec (balance s id who) 0) as [Hz|]; simpl; [|done].
  intros _. by apply destroy_taken_equiv.
Qed.

(** On success: the caller's balance is gone, the supply of [id] is
    reduced by it, nothing else changes, and [Destroyed] carries it. *)
Lemma destroy_success o id s s' :
  destroy o id s = (s', Ok tt) ->
  exists who, o = Signed who /\ balance s id who <> 0 /\
    balance s' id who = 0 /\
    total_supply s' id = wrap balance_bits (total_supply s id - balance s id who) /\
    (forall id' c, (id', c) <> (id, who) -> balance s' id' c = balance s id' c) /\
    (forall id', id' <> id -> total_supply s' id' = total_supply s id') /\
    s'.(NextAssetId) = s.(NextAssetId) /\
    s'.(events) = s.(events) ++ [Destroyed id who (balance s id who)].
Proof.
  destruct o as [|who|]; try discriminate. intros Hrun. exists who.
  rewrite destroy_run in Hrun. destruct (Z.eqb_spec (balance s id who) 0); [discriminate|].
  injection Hrun as <-. unfold balance, total_supply; simpl.
  rewrite zget_delete_eq, map_mutate_zget, decide_True by done.
  repeat split; try done.
  - intros id' c Hne. by rewrite zget_delete_ne.
  - intros id' Hne. rewrite map_mutate_zget. by case_decide.
Qed.

(** ** [issue] *)

(** C27: a signed [issue] always succeeds: it hands out [NextAssetId], bumps
    it (modulo 2^32), credits [total] to the caller as the supply of the
    new id, and touches no other asset. *)
Theorem issue_success who total s :
  let id := s.(NextAssetId) in
  let '(s', r) := issue (Signed who) total s in
  r = Ok tt /\
  s'.(NextAssetId) = wrap asset_id_bits (id + 1) /\
  balance s' id who = total /\ total_supply s' id = total /\
  (forall id' c, (id', c) <> (id, who) -> balance s' id' c = balance s id' c) /\
  (forall id', id' <> id -> total_supply s' id' = total_supply s id') /\
  s'.(events) = s.(events) ++ [Issued id who total].
Proof.
  rewrite issue_run. unfold balance, total_supply; simpl.
  rewrite !zget_insert_eq. repeat split; try done.
  - intros id' c Hne. by rewrite zget_insert_ne.
  - intros id' Hne. by rewrite zget_insert_ne.
Qed.

(** ** The dispatcher *)

Lemma dispatch_unsigned o c s :
  (forall who, o <> Signed who) -> dispatch o c s = (s, Err BadOrigin).
Proof. intros Ho. destruct c; simpl; by apply ensure_signed_unsigned. Qed.

(** C5: a rejected call leaves a state that no read can tell from the one
    before: [issue] and [transfer] write nothing before an error, and the
    only write [destroy] makes before its check removes an entry that
    reads zero. *)
Theorem dispatch_err_equiv o c s e :
  (dispatch o c s).2 = Err e -> state_equiv (dispatch o c s).1 s.
Proof.
  destruct c as [total|id src amount|id]; simpl.
  - destruct o; simpl; [|done|]; intros; reflexivity.
  - intros He. rewrite (transfer_err_state _ _ _ _ _ _ He). reflexivity.
  - apply destroy_err_equiv.
Qed.

End Facts.
