(* ===== verification/Spec.v ===== *)
(** * The ledger as the spec describes it

    Section 4.1 of the spec states what the asset operations require of
    the store: [getBalance]/[setBalance], [getSupply]/[setSupply],
    [nextAssetId]/[advanceAssetId].  [LedgerStore] is that contract as a
    class, [LedgerStoreLaws] its laws.  [spec_issue], [spec_transfer] and
    [spec_destroy] are the operations of sections 4.2 to 4.4, atomic (an
    error returns no state) and written against the class only, with the
    spec's rejections including [IdSpaceExhausted].  The theorems of the
    section [Client] follow from the laws alone, so they hold of every
    store that implements the contract; [Refinement] shows that the
    Substrate storage of [Token] is one. *)

From S2P Require Import Prelude Storage Token.
Import Token.

Class LedgerStore (S A : Type) := {
  getBalance : S -> AssetId -> A -> Z;
  setBalance : S -> AssetId -> A -> Z -> S;
  getSupply : S -> AssetId -> Z;
  setSupply : S -> AssetId -> Z -> S;
  nextAssetId : S -> AssetId;
  advanceAssetId : S -> S;
  (** Ids below [id_limit] can be handed out. *)
  id_limit : Z
}.

Class LedgerStoreLaws (S A : Type) `{EqDecision A} `{!LedgerStore S A} := {
  get_set_balance s id a v id' a' :
    getBalance (setBalance s id a v) id' a' =
    if decide ((id, a) = (id', a')) then v else getBalance s id' a';
  supply_set_balance s id a v id' : getSupply (setBalance s id a v) id' = getSupply s id';
  next_set_balance s id a v : nextAssetId (setBalance s id a v) = nextAssetId s;
  get_set_supply s id v id' :
    getSupply (setSupply s id v) id' = if decide (id = id') then v else getSupply s id';
  balance_set_supply s id v id' a : getBalance (setSupply s id v) id' a = getBalance s id' a;
  next_set_supply s id v : nextAssetId (setSupply s id v) = nextAssetId s;
  next_advance s :
    0 <= nextAssetId s -> nextAssetId s + 1 < id_limit ->
    nextAssetId (advanceAssetId s) = nextAssetId s + 1;
  balance_advance s id a : getBalance (advanceAssetId s) id a = getBalance s id a;
  supply_advance s id : getSupply (advanceAssetId s) id = getSupply s id
}.

Inductive SpecError :=
| SpecZeroAmount
| SpecInsufficientBalance
| SpecZeroBalance
| SpecIdSpaceExhausted.

Section Operations.
Context {S A : Type} `{EqDecision A} `{!LedgerStore S A}.

(** 4.2 Issue: allocate, credit the caller, set the supply; fail when the
    id space is exhausted. *)
Definition spec_issue (caller : A) (total : Z) (s : S) : SpecError + (S * Event) :=
  let id := nextAssetId s in
  if id + 1 <? id_limit then
    inr (setSupply (setBalance (advanceAssetId s) id caller total) id total,
         Issued id caller total)
  else inl SpecIdSpaceExhausted.

(** 4.3 Transfer: reject a zero amount, then an insufficient balance. *)
Definition spec_transfer (caller : A) (id : AssetId) (target : A) (amount : Z) (s : S)
  : SpecError + (S * Event) :=
  if amount =? 0 then inl SpecZeroAmount
  else if getBalance s id caller <? amount then inl SpecInsufficientBalance
  else
    let s1 := setBalance s id caller (getBalance s id caller - amount) in
    inr (setBalance s1 id target (getBalance s1 id target + amount),
         Transferred id caller target amount).

(** 4.4 Destroy: reject a zero balance, else clear it and lower the supply. *)
Definition spec_destroy (caller : A) (id : AssetId) (s : S) : SpecError + (S * Event) :=
  let b := getBalance s id caller in
  if b =? 0 then inl SpecZeroBalance
  else inr (setSupply (setBalance s id caller 0) id (getSupply s id - b),
            Destroyed id caller b).
End Operations.

Section Client.
Context {S A : Type} `{EqDecision A} `{!LedgerStore S A} `{!LedgerStoreLaws S A}.
Implicit Types (s : S) (caller target a : A) (id : AssetId).

(** Against the store contract alone, a transfer that the spec accepts
    moves [amount] from the caller to the target (the same account keeps
    its balance), leaves every other balance, every supply and the next
    id as they were, and reports [Transferred]. *)
Lemma spec_transfer_effect caller id target amount s s' ev :
  spec_transfer caller id target amount s = inr (s', ev) ->
  amount <> 0 /\ amount <= getBalance s id caller /\
  ev = Transferred id caller target amount /\
  getBalance s' id caller =
    (if decide (caller = target) then getBalance s id caller
     else getBalance s id caller - amount) /\
  getBalance s' id target =
    (if decide (caller = target) then getBalance s id caller
     else getBalance s id target + amount) /\
  (forall id' a, (id', a) <> (id, caller) -> (id', a) <> (id, target) ->
                 getBalance s' id' a = getBalance s id' a) /\
  (forall id', getSupply s' id' = getSupply s id') /\
  nextAssetId s' = nextAssetId s.
Proof.
  unfold spec_transfer.
  destruct (Z.eqb_spec amount 0); [discriminate|].
  destruct (Z.ltb_spec (getBalance s id caller) amount); [discriminate|].
  intros [= <- <-]. rewrite !get_set_balance, !next_set_balance.
  repeat split; try lia; intros; rewrite ?get_set_balance, ?supply_set_balance;
    repeat case_decide; simplify_eq; try done; lia.
Qed.

(** The spec's destroy clears the caller and lowers the supply by what it held. *)
Lemma spec_destroy_effect caller id s s' ev :
  spec_destroy caller id s = inr (s', ev) ->
  getBalance s id caller <> 0 /\ ev = Destroyed id caller (getBalance s id caller) /\
  getBalance s' id caller = 0 /\
  getSupply s' id = getSupply s id - getBalance s id caller /\
  (forall id' a, (id', a) <> (id, caller) -> getBalance s' id' a = getBalance s id' a) /\
  (forall id', id' <> id -> getSupply s' id' = getSupply s id') /\
  nextAssetId s' = nextAssetId s.
Proof.
  unfold spec_destroy. destruct (Z.eqb_spec (getBalance s id caller) 0); [discriminate|].
  intros [= <- <-].
  rewrite !balance_set_supply, !get_set_supply, !next_set_supply, !next_set_balance.
  repeat split; try done; intros; rewrite ?balance_set_supply, ?get_set_supply,
    ?get_set_balance, ?supply_set_balance; repeat case_decide; simplify_eq; done.
Qed.

(** The spec's issue, while ids remain, hands out [nextAssetId] and
    creates a class held entirely by the caller. *)
Lemma spec_issue_effect caller total s :
  0 <= nextAssetId s -> nextAssetId s + 1 < id_limit ->
  exists s', spec_issue caller total s = inr (s', Issued (nextAssetId s) caller total) /\
    nextAssetId s' = nextAssetId s + 1 /\
    getBalance s' (nextAssetId s) caller = total /\ getSupply s' (nextAssetId s) = total /\
    (forall id' a, (id', a) <> (nextAssetId s, caller) -> getBalance s' id' a = getBalance s id' a) /\
    (forall id', id' <> nextAssetId s -> getSupply s' id' = getSupply s id').
Proof.
  intros H0 Hn. unfold spec_issue. destruct (Z.ltb_spec (nextAssetId s + 1) id_limit); [|lia].
  eexists. split; [reflexivity|].
  rewrite next_set_supply, next_set_balance, next_advance by done.
  rewrite balance_set_supply, get_set_balance, get_set_supply, decide_True, decide_True by done.
  repeat split; try done; intros.
  - rewrite balance_set_supply, get_set_balance, decide_False by congruence.
    apply balance_advance.
  - rewrite get_set_supply, decide_False by congruence.
    rewrite supply_set_balance. apply supply_advance.
Qed.
End Client.
