(* ===== verification/Invariant.v ===== *)
(** * The ledger invariant

    [inv] is what every state reached from genesis satisfies while the
    asset-id space is not exhausted: every stored balance and supply lies
    in the range of [T::Balance], [NextAssetId] in the range of [u32],
    no account holds anything of an id at or above [NextAssetId], and
    for every asset the total supply equals the sum of the balances of
    all accounts ([holders_sum]).  Every call preserves it (an [issue]
    only while [NextAssetId + 1] fits in a [u32]), so it holds on every
    state reached by well-typed calls ([safe_reachable]); from it follows
    that no balance arithmetic of the module wraps.

    [typed] is the range part of [inv] ([inv_typed]), the hypothesis
    under which the debug build of [Checked] is compared with this one.
    On reachable states a transfer and its reverse restore the ledger
    ([transfer_roundtrip]), and so does an [issue] followed by the
    issuer's [destroy] of the new class, [NextAssetId] aside
    ([issue_destroy_roundtrip]). *)

From S2P Require Import Prelude Storage Token.
Import Token.

Section Invariant.
Context {AccountId : Type} `{Countable AccountId}.
Context {Source : Type} `{!StaticLookup Source AccountId}.
Context `{!BalanceType}.

Local Abbreviation State := (@State AccountId _ _).
Local Abbreviation Call := (@Call Source).
Implicit Types (s : State) (who tgt c : AccountId) (id : AssetId) (src : Source).

(** The keys of [Balances] that belong to asset [id]. *)
Definition asset_of (id : AssetId) (k : AssetId * AccountId) : bool := bool_decide (k.1 = id).

(** The sum of the balances of all accounts for asset [id]. *)
Definition holders_sum s id : Z := sum_where (asset_of id) s.(Balances).

Record inv (s : State) : Prop := {
  inv_balances_range : map_in_range balance_bits s.(Balances);
  inv_supply_range : map_in_range balance_bits s.(TotalSupply);
  inv_next_range : 0 <= s.(NextAssetId) < 2 ^ asset_id_bits;
  inv_fresh : forall id c, s.(NextAssetId) <= id -> balance s id c = 0;
  inv_conservation : forall id, total_supply s id = holders_sum s id
}.

(** The storage holds values of its Rust types: every balance and
    supply a [T::Balance], [NextAssetId] a [u32].  Unlike [inv] this
    needs no reachability and survives the wrap of [NextAssetId]. *)
Record typed (s : State) : Prop := {
  typed_balances : map_in_range balance_bits s.(Balances);
  typed_supply : map_in_range balance_bits s.(TotalSupply);
  typed_next : 0 <= s.(NextAssetId) < 2 ^ asset_id_bits
}.

(** The arguments of a call are values of their Rust types. *)
Definition wf_call (call : Call) : bool :=
  match call with
  | Call_issue total => in_range balance_bits total
  | Call_transfer id _ amount => in_range asset_id_bits id && in_range balance_bits amount
  | Call_destroy id => in_range asset_id_bits id
  end.

(** An [issue] does not hand out the last [u32]. *)
Definition id_available s (call : Call) : Prop :=
  match call with
  | Call_issue _ => s.(NextAssetId) + 1 < 2 ^ asset_id_bits
  | _ => True
  end.

(** One extrinsic: any origin, any well-typed call. *)
Inductive step : State -> State -> Prop :=
| step_dispatch s o call : wf_call call = true -> step s (dispatch o call s).1.

Inductive safe_step : State -> State -> Prop :=
| safe_step_dispatch s o call :
    wf_call call = true -> id_available s call -> safe_step s (dispatch o call s).1.

Definition reachable s : Prop := star step genesis s.
Definition safe_reachable s : Prop := star safe_step genesis s.

Lemma safe_reachable_reachable s : safe_reachable s -> reachable s.
Proof. apply star_mono. intros x y []. by constructor. Qed.

(** ** Consequences of the invariant *)

Lemma asset_of_same id c : asset_of id (id, c) = true.
Proof. unfold asset_of. by apply bool_decide_eq_true. Qed.

Lemma asset_of_other id id' c : id <> id' -> asset_of id' (id, c) = false.
Proof. intros. unfold asset_of. by apply bool_decide_eq_false. Qed.

Lemma balance_bits_nonneg : 0 <= balance_bits.
Proof. pose proof balance_bits_pos. lia. Qed.

Lemma inv_balance_range s id c : inv s -> 0 <= balance s id c < 2 ^ balance_bits.
Proof. intros Hi. apply map_in_range_zget; [apply Hi | apply balance_bits_nonneg]. Qed.

Lemma inv_supply_bound s id : inv s -> 0 <= total_supply s id < 2 ^ balance_bits.
Proof. intros Hi. apply map_in_range_zget; [apply Hi | apply balance_bits_nonneg]. Qed.

Lemma inv_balance_le_supply s id c : inv s -> balance s id c <= total_supply s id.
Proof.
  intros Hi. rewrite inv_conservation by done. apply sum_where_ge_entry.
  - eapply map_in_range_nonneg, Hi.
  - apply asset_of_same.
Qed.

Lemma inv_pair_le_supply s id who tgt :
  inv s -> who <> tgt -> balance s id who + balance s id tgt <= total_supply s id.
Proof.
  intros Hi Hne. rewrite inv_conservation by done. apply sum_where_ge_two.
  - eapply map_in_range_nonneg, Hi.
  - apply asset_of_same.
  - apply asset_of_same.
  - congruence.
Qed.

(** An asset whose caller balance is non-zero has been issued. *)
Lemma inv_held_issued s id c : inv s -> balance s id c <> 0 -> id < s.(NextAssetId).
Proof.
  intros Hi Hnz. destruct (Z.lt_ge_cases id s.(NextAssetId)) as [|Hge]; [done|].
  by rewrite inv_fresh in Hnz.
Qed.

Lemma holders_sum_fresh s id : inv s -> s.(NextAssetId) <= id -> holders_sum s id = 0.
Proof.
  intros Hi Hge. apply sum_where_zero. intros [id' c] Hk.
  unfold asset_of in Hk. apply bool_decide_eq_true in Hk. simpl in Hk; subst.
  by apply inv_fresh.
Qed.

Lemma inv_genesis : inv genesis.
Proof. split; simpl; try done. Qed.

(** ** Preservation *)

Lemma issue_preserves_inv s who total :
  inv s -> 0 <= total < 2 ^ balance_bits -> s.(NextAssetId) + 1 < 2 ^ asset_id_bits ->
  inv (issue (Signed who) total s).1.
Proof.
  intros Hi Ht Hn. pose proof (inv_next_range s Hi) as Hr.
  assert (Hz : s.(Balances) @@ (s.(NextAssetId), who) = 0) by (apply (inv_fresh s Hi); lia).
  rewrite issue_run.
  split; unfold balance, total_supply, holders_sum; state_simpl;
    try rewrite wrap_small by lia.
  - apply map_in_range_insert; [apply Hi | lia].
  - apply map_in_range_insert; [apply Hi | lia].
  - lia.
  - intros id c Hge. rewrite zget_insert_ne by (intros [=]; lia).
    apply (inv_fresh s Hi). lia.
  - intros id. rewrite zget_insert, sum_where_insert.
    destruct (decide (s.(NextAssetId) = id)) as [<-|Hne].
    + rewrite asset_of_same, Hz. pose proof (holders_sum_fresh s _ Hi (Z.le_refl _)).
      unfold holders_sum in *. lia.
    + rewrite asset_of_other by done. pose proof (inv_conservation s Hi id).
      unfold holders_sum, total_supply in *. lia.
Qed.
(** Under the invariant a successful transfer wraps neither write. *)
Lemma transfer_post_no_wrap s id who tgt amount :
  inv s -> 0 < amount <= balance s id who ->
  (transfer_post s id who tgt amount).(Balances) =
  <[(id, tgt) := (<[(id, who) := balance s id who - amount]> s.(Balances)) @@ (id, tgt) + amount]>
    (<[(id, who) := balance s id who - amount]> s.(Balances)).
Proof.
  intros Hi Ha. pose proof (inv_balance_range s id who Hi).
  unfold transfer_post, map_mutate; state_simpl.
  rewrite (wrap_small _ (balance s id who - amount)) by lia. f_equal.
  apply wrap_small. rewrite zget_insert. case_decide as Heq; [lia|].
  assert (who <> tgt) by congruence.
  pose proof (inv_pair_le_supply s id who tgt Hi ltac:(done)).
  pose proof (inv_balance_range s id tgt Hi). pose proof (inv_supply_bound s id Hi).
  unfold balance in *. lia.
Qed.

(** The balances after a successful transfer, on a state with the
    invariant, with no wrap left. *)
Lemma transfer_post_balance_inv s id who tgt amount id' c :
  inv s -> 0 < amount <= balance s id who ->
  balance (transfer_post s id who tgt amount) id' c =
  if decide ((id, tgt) = (id', c)) then
    (if decide (who = tgt) then balance s id who else balance s id tgt + amount)
  else if decide ((id, who) = (id', c)) then balance s id who - amount
  else balance s id' c.
Proof.
  intros Hi Ha. unfold balance at 1.
  rewrite (transfer_post_no_wrap s id who tgt amount Hi Ha), !zget_insert.
  repeat case_decide; simplify_eq; unfold balance in *; lia.
Qed.

Lemma transfer_post_preserves_inv s id who tgt amount :
  inv s -> 0 < amount <= balance s id who -> inv (transfer_post s id who tgt amount).
Proof.
  intros Hi Ha. pose proof (inv_held_issued s id who Hi ltac:(lia)) as Hid.
  pose proof (inv_balance_range s id who Hi).
  pose proof (inv_pair_le_supply s id who tgt Hi).
  pose proof (inv_balance_range s id tgt Hi). pose proof (inv_supply_bound s id Hi).
  split; unfold balance, total_supply, holders_sum;
    rewrite ?transfer_post_no_wrap by done; unfold transfer_post; state_simpl.
  - apply map_in_range_insert; [apply map_in_range_insert; [apply Hi | lia]|].
    rewrite zget_insert. unfold balance in *. case_decide as Heq; [lia|].
    assert (Hw : who <> tgt) by congruence. specialize (H2 Hw). lia.
  - apply Hi.
  - apply Hi.
  - intros id' c Hge. rewrite !zget_insert_ne by (intros [=]; lia).
    apply (inv_fresh s Hi). lia.
  - intros id'. rewrite !sum_where_insert. pose proof (inv_conservation s Hi id') as Hc.
    unfold total_supply, holders_sum, balance in *.
    destruct (decide (id = id')) as [<-|Hne].
    + rewrite !asset_of_same. lia.
    + rewrite !asset_of_other by done. lia.
Qed.

Lemma transfer_preserves_inv s o id src amount :
  inv s -> 0 <= amount -> inv (transfer o id src amount s).1.
Proof.
  intros Hi Ha. destruct (transfer o id src amount s) as [s' [[]|e]] eqn:Hrun.
  - apply transfer_success in Hrun as (who & tgt & _ & _ & Hz & Hle & ->).
    apply transfer_post_preserves_inv; [done | lia].
  - pose proof (transfer_err_state o id src amount s e) as Hs.
    rewrite Hrun in Hs. simpl in Hs. rewrite Hs by done. done.
Qed.
(** Removing the caller's entry and lowering the supply of [id] by the
    same amount [b] keeps the invariant. *)
Lemma inv_take_entry s id who (T' : gmap AssetId Z) (evs : list Event) :
  inv s -> map_in_range balance_bits T' ->
  (forall id', T' @@ id' = if decide (id = id') then total_supply s id - balance s id who
                           else total_supply s id') ->
  inv (mkState (delete (id, who) s.(Balances)) s.(NextAssetId) T' evs).
Proof.
  intros Hi HT HT'.
  split; unfold balance, total_supply, holders_sum; state_simpl.
  - apply map_in_range_delete, Hi.
  - done.
  - apply Hi.
  - intros id' c Hge. rewrite zget_delete. case_decide; [done|]. by apply (inv_fresh s Hi).
  - intros id'. rewrite HT', sum_where_delete. pose proof (inv_conservation s Hi id') as Hc.
    unfold total_supply, holders_sum, balance in *.
    case_decide as Heq; [subst; rewrite asset_of_same | rewrite asset_of_other]; auto; lia.
Qed.

Lemma destroy_preserves_inv s o id : inv s -> inv (destroy o id s).1.
Proof.
  intros Hi. destruct o as [|who|]; [done| |done].
  pose proof (inv_balance_le_supply s id who Hi).
  pose proof (inv_balance_range s id who Hi). pose proof (inv_supply_bound s id Hi).
  rewrite destroy_run. destruct (Z.eqb_spec (balance s id who) 0) as [Hz|Hnz]; state_simpl.
  - apply inv_take_entry; [done | apply Hi |]. intros id'.
    case_decide; subst; [rewrite Hz|]; unfold total_supply; lia.
  - apply inv_take_entry; [done| |].
    + apply map_in_range_mutate; [apply Hi|]. apply wrap_range, balance_bits_nonneg.
    + intros id'. rewrite map_mutate_zget. case_decide; [|done].
      subst. apply wrap_small. unfold total_supply in *. lia.
Qed.

(** Every well-typed call preserves the invariant, an [issue] as long as
    the next id is not the last [u32]. *)
Lemma call_preserves_inv s o call :
  inv s -> wf_call call = true -> id_available s call -> inv (dispatch o call s).1.
Proof.
  intros Hi Hwf Hav. destruct call as [total|id src amount|id]; simpl in *.
  - apply in_range_spec in Hwf. destruct o as [|who|]; [done| |done].
    by apply issue_preserves_inv.
  - apply andb_true_iff in Hwf as [_ Hwf]. apply in_range_spec in Hwf.
    apply transfer_preserves_inv; [done | lia].
  - by apply destroy_preserves_inv.
Qed.

(** C2: the invariant is inductive: one extrinsic (any origin, any
    well-typed call that does not hand out the last [u32] id) takes a
    state that satisfies it to one that does. *)
Theorem safe_step_preserves_inv s s' : inv s -> safe_step s s' -> inv s'.
Proof. intros Hi Hs. destruct Hs as [s0 o call Hwf Hav]. by apply call_preserves_inv. Qed.

Lemma safe_reachable_inv s : safe_reachable s -> inv s.
Proof.
  apply star_invariant; [|apply inv_genesis].
  intros x y Hx Hs. destruct Hs. by apply call_preserves_inv.
Qed.
(** ** What holds on every reachable state *)

(** C1: conservation.  On every state reached from genesis by well-typed
    calls that do not exhaust the id space, the total supply of every
    asset equals the sum of the balances of all accounts. *)
Theorem conservation s id :
  safe_reachable s -> total_supply s id = holders_sum s id.
Proof. intros Hr. apply inv_conservation, safe_reachable_inv, Hr. Qed.

(** C11: bounds.  On every such state every balance and every supply is a
    value of [T::Balance], and two holders of one asset together hold at
    most its supply, so that [target + amount] in [transfer] and
    [supply - balance] in [destroy] never wrap. *)
Theorem balances_bounded s id who tgt :
  safe_reachable s ->
  0 <= balance s id who /\ balance s id who <= total_supply s id /\
  total_supply s id < 2 ^ balance_bits /\
  (who <> tgt -> balance s id who + balance s id tgt <= total_supply s id).
Proof.
  intros Hr. apply safe_reachable_inv in Hr.
  pose proof (inv_balance_range s id who Hr). pose proof (inv_supply_bound s id Hr).
  pose proof (inv_balance_le_supply s id who Hr).
  repeat split; try lia. by apply inv_pair_le_supply.
Qed.

(** C28: no asset id at or above [NextAssetId] has a holder or a supply. *)
Theorem unissued_assets_empty s id c :
  safe_reachable s -> s.(NextAssetId) <= id -> balance s id c = 0 /\ total_supply s id = 0.
Proof.
  intros Hr Hge. apply safe_reachable_inv in Hr. split; [by apply inv_fresh|].
  rewrite inv_conservation by done. by apply holders_sum_fresh.
Qed.

Definition is_issue (call : Call) : bool :=
  match call with Call_issue _ => true | _ => false end.

Definition succeeded {A} (r : result A) : bool :=
  match r with Ok _ => true | Err _ => false end.

Lemma next_asset_id_dispatch s o call :
  inv s -> id_available s call ->
  (dispatch o call s).1.(NextAssetId) =
  s.(NextAssetId) + (if is_issue call && succeeded (dispatch o call s).2 then 1 else 0).
Proof.
  intros Hi Hav. pose proof (inv_next_range s Hi).
  destruct call as [total|id src amount|id]; simpl in *.
  - destruct o as [|who|]; simpl; [lia| |lia].
    unfold asset_id_bits in *. rewrite wrap_small; lia.
  - destruct (transfer o id src amount s) as [s' [[]|e]] eqn:Hrun; simpl.
    + apply transfer_success in Hrun as (? & ? & _ & _ & _ & _ & ->). simpl. lia.
    + pose proof (transfer_err_state o id src amount s e) as Hs.
      rewrite Hrun in Hs. simpl in Hs. rewrite Hs by done. lia.
  - destruct o as [|who|]; simpl; [lia| |lia].
    rewrite destroy_run. by destruct (_ =? 0); simpl; lia.
Qed.

Lemma safe_step_next_le s s' : inv s -> safe_step s s' -> s.(NextAssetId) <= s'.(NextAssetId).
Proof.
  intros Hi Hs. destruct Hs as [s0 o call Hwf Hav].
  rewrite (next_asset_id_dispatch s0 o call Hi Hav). destruct (_ && _); lia.
Qed.

Lemma star_safe_step_next_le s s' :
  inv s -> star safe_step s s' -> s.(NextAssetId) <= s'.(NextAssetId).
Proof.
  intros Hi Hs. induction Hs as [|a b c Hab Hbc IH]; [lia|].
  pose proof (safe_step_next_le a b Hi Hab).
  assert (Hb : inv b) by (destruct Hab; by apply call_preserves_inv).
  specialize (IH Hb). lia.
Qed.

(** C20: on a reachable state, [NextAssetId] moves by exactly one on a
    successful [issue] and stays put on every other call and on every
    rejection. *)
Theorem next_asset_id_step s o call :
  safe_reachable s -> id_available s call ->
  (dispatch o call s).1.(NextAssetId) =
  s.(NextAssetId) + (if is_issue call && succeeded (dispatch o call s).2 then 1 else 0).
Proof. intros Hr. apply next_asset_id_dispatch, safe_reachable_inv, Hr. Qed.

(** C21: ids are never reused.  After an [issue] hands out [id], every later
    state (whatever calls follow) has [NextAssetId] above [id], so a later
    [issue] hands out a strictly greater id. *)
Theorem issued_ids_increase s o total s' :
  safe_reachable s ->
  wf_call (Call_issue total) = true -> id_available s (Call_issue total) ->
  (dispatch o (Call_issue total) s).2 = Ok tt ->
  star safe_step (dispatch o (Call_issue total) s).1 s' ->
  s.(NextAssetId) < s'.(NextAssetId).
Proof.
  intros Hr Hwf Hav Hok Hs. pose proof (safe_reachable_inv s Hr) as Hi.
  pose proof (next_asset_id_dispatch s o _ Hi Hav) as Hn. rewrite Hok in Hn. simpl in Hn.
  pose proof (star_safe_step_next_le _ _ (call_preserves_inv s o _ Hi Hwf Hav) Hs).
  simpl in *. lia.
Qed.
(** C4: on a reachable state a successful [transfer] of a [u128] amount moves
    exactly [amount] from the caller to the target (nothing, for a
    self-transfer), leaves every other balance, every supply and the
    next id alone, and appends [Transferred]. *)
Theorem transfer_moves_amount s o id src amount s' :
  safe_reachable s -> 0 <= amount ->
  transfer o id src amount s = (s', Ok tt) ->
  exists who tgt, o = Signed who /\ lookup src = Some tgt /\
    (who <> tgt -> balance s' id who = balance s id who - amount /\
                   balance s' id tgt = balance s id tgt + amount) /\
    (who = tgt -> balance s' id who = balance s id who) /\
    (forall id' c, (id', c) <> (id, who) -> (id', c) <> (id, tgt) ->
                   balance s' id' c = balance s id' c) /\
    (forall id', total_supply s' id' = total_supply s id') /\
    s'.(NextAssetId) = s.(NextAssetId) /\
    s'.(events) = s.(events) ++ [Transferred id who tgt amount].
Proof.
  intros Hr Ha Hrun. pose proof (safe_reachable_inv s Hr) as Hi.
  apply transfer_success in Hrun as (who & tgt & -> & Hl & Hz & Hle & ->).
  assert (Hpos : 0 < amount <= balance s id who) by lia.
  exists who, tgt. repeat split; try done; intros;
    rewrite ?transfer_post_balance_inv by done; repeat case_decide; simplify_eq; lia.
Qed.

(** C25: on a reachable state a successful [destroy] lowers the supply by
    exactly the balance it removes (the subtraction never wraps). *)
Theorem destroy_burns_balance s o id s' :
  safe_reachable s -> destroy o id s = (s', Ok tt) ->
  exists who, o = Signed who /\
    balance s' id who = 0 /\
    total_supply s' id = total_supply s id - balance s id who /\
    s'.(events) = s.(events) ++ [Destroyed id who (balance s id who)].
Proof.
  intros Hr Hrun. pose proof (safe_reachable_inv s Hr) as Hi.
  apply destroy_success in Hrun as (who & -> & Hnz & Hb & Ht & _ & _ & _ & He).
  exists who. rewrite Ht, wrap_small; [done|].
  pose proof (inv_balance_le_supply s id who Hi).
  pose proof (inv_balance_range s id who Hi). pose proof (inv_supply_bound s id Hi). lia.
Qed.
(** ** Types *)

Lemma inv_typed s : inv s -> typed s.
Proof. intros Hi. split; apply Hi. Qed.

(** ** Round trip *)

(** C12: round trip.  On a reachable state, after a successful transfer of
    [amount] from [who] to [tgt], the transfer of [amount] back from
    [tgt] to [who] succeeds and restores every balance (as any read sees
    it), every supply and the next id; the log gains the two events. *)
Theorem transfer_roundtrip s who tgt id src_t src_w amount s1 :
  safe_reachable s -> 0 <= amount -> lookup src_t = Some tgt -> lookup src_w = Some who ->
  transfer (Signed who) id src_t amount s = (s1, Ok tt) ->
  exists s2, transfer (Signed tgt) id src_w amount s1 = (s2, Ok tt) /\
    s2.(Balances) ≡ₛ s.(Balances) /\ s2.(TotalSupply) = s.(TotalSupply) /\
    s2.(NextAssetId) = s.(NextAssetId) /\
    s2.(events) = s.(events) ++ [Transferred id who tgt amount; Transferred id tgt who amount].
Proof.
  intros Hr Ha Ht Hw Hrun. pose proof (safe_reachable_inv s Hr) as Hi.
  apply transfer_success in Hrun as (who' & tgt' & [= <-] & Ht' & Hz & Hle & ->).
  rewrite Ht in Ht'. injection Ht' as <-.
  assert (Hpos : 0 < amount <= balance s id who) by lia.
  pose proof (transfer_post_preserves_inv s id who tgt amount Hi Hpos) as Hi1.
  assert (Hpos1 : 0 < amount <= balance (transfer_post s id who tgt amount) id tgt).
  { rewrite transfer_post_balance_inv by done. rewrite decide_True by done.
    pose proof (inv_balance_range s id tgt Hi). case_decide; lia. }
  rewrite transfer_run, Hw. destruct (Z.eqb_spec amount 0); [lia|].
  destruct (Z.leb_spec amount (balance (transfer_post s id who tgt amount) id tgt)); [|lia].
  eexists. split; [reflexivity|]. split; [|split; [done | split; [done|]]].
  - intros [id' c].
    change (balance (transfer_post (transfer_post s id who tgt amount) id tgt who amount) id' c =
            balance s id' c).
    rewrite !transfer_post_balance_inv by done. repeat case_decide; simplify_eq; lia.
  - simpl. by rewrite <- app_assoc.
Qed.
(** C18: round trip of an asset class.  On a reachable state where ids
    remain, an [issue] of [total] by [who] followed by [who]'s [destroy]
    of the id it handed out leaves every balance and every supply as any
    read sees them before the issue, with [NextAssetId] one higher; the
    [destroy] succeeds exactly when [total] is non-zero. *)
Theorem issue_destroy_roundtrip s who total :
  safe_reachable s -> 0 <= total < 2 ^ balance_bits ->
  s.(NextAssetId) + 1 < 2 ^ asset_id_bits ->
  (destroy (Signed who) s.(NextAssetId) (issue (Signed who) total s).1).1.(Balances) ≡ₛ s.(Balances) /\
  (destroy (Signed who) s.(NextAssetId) (issue (Signed who) total s).1).1.(TotalSupply) ≡ₛ
    s.(TotalSupply) /\
  (destroy (Signed who) s.(NextAssetId) (issue (Signed who) total s).1).1.(NextAssetId) =
    s.(NextAssetId) + 1 /\
  ((destroy (Signed who) s.(NextAssetId) (issue (Signed who) total s).1).2 = Ok tt <-> total <> 0).
Proof.
  intros Hr Ht Hn. pose proof (safe_reachable_inv s Hr) as Hi. pose proof (inv_next_range s Hi).
  assert (Hb0 : forall c, s.(Balances) @@ (s.(NextAssetId), c) = 0) by (intros c; apply (inv_fresh s Hi); lia).
  assert (Hs0 : s.(TotalSupply) @@ s.(NextAssetId) = 0).
  { pose proof (inv_conservation s Hi s.(NextAssetId)) as Hc. unfold total_supply in Hc.
    rewrite Hc. by apply holders_sum_fresh. }
  rewrite issue_run, destroy_run. unfold balance; state_simpl. rewrite zget_insert_eq.
  rewrite wrap_small by (unfold asset_id_bits in *; lia).
  destruct (Z.eqb_spec total 0) as [->|Hz]; unfold destroy_taken; state_simpl;
    (split; [|split; [|split]]).
  - intros k. rewrite zget_delete, zget_insert. case_decide; subst; auto.
  - intros i. rewrite zget_insert. case_decide; subst; auto.
  - done.
  - split; [discriminate | by intros []].
  - intros k. rewrite zget_delete, zget_insert. case_decide; subst; auto.
  - intros i. rewrite map_mutate_zget, !zget_insert. repeat case_decide; subst; try done.
    rewrite Z.sub_diag, wrap_small by lia. auto.
  - done.
  - by split.
Qed.
End Invariant.
