(* ===== verification/Checked.v ===== *)
(** * The debug build: checked arithmetic

    [Token] models the runtime as Substrate builds it, in release mode,
    where [+=] and [-=] on unsigned integers wrap.  In a debug build the
    same lines are compiled with overflow checks: an overflowing [+=] or
    [-=] panics, the runtime traps and the block is abandoned, so no
    state survives.  [CDispatch] is the dispatch monad with that extra
    outcome ([None]); [checked_add] and [checked_sub] are the debug-build
    operators; [issue_checked], [transfer_checked] and [destroy_checked]
    are the three dispatchables of token.rs again, statement by statement,
    with every arithmetic operation of the source checked
    ([<NextAssetId>::mutate(|id| *id += 1)], [origin_balance - amount],
    [*balance += amount], [*total_supply -= balance]) and every other
    statement lifted from [Token] unchanged.

    [panics] says when a call overflows.  The theorems show that on a
    state whose values are of their Rust types the debug build does what
    the release build does except exactly when [panics] holds
    ([dispatch_checked_run]); that on reachable states it never panics
    ([debug_build_never_panics]); and that it panics on [issue] exactly
    at the last [u32] id, where the release build wraps
    ([issue_checked_panics_iff]). *)

From S2P Require Import Prelude Storage Token Invariant.
Import Token.

(** ** Debug-build arithmetic on [w]-bit unsigned integers *)

(** [a + b] in a debug build: [None] is the overflow panic. *)
Definition checked_add (w a b : Z) : option Z :=
  if 2 ^ w <=? a + b then None else Some (a + b).

(** [a - b] in a debug build: [None] is the underflow panic. *)
Definition checked_sub (w a b : Z) : option Z :=
  if a <? b then None else Some (a - b).

Arguments checked_add : simpl never.
Arguments checked_sub : simpl never.

(** Where it does not panic, checked arithmetic is the wrapping one. *)
Lemma checked_add_run w a b :
  0 <= a + b -> checked_add w a b = if 2 ^ w <=? a + b then None else Some (wrap w (a + b)).
Proof.
  intros H. unfold checked_add. destruct (Z.leb_spec (2 ^ w) (a + b)); [done|].
  by rewrite wrap_small by lia.
Qed.

Lemma checked_sub_run w a b :
  0 <= b -> a < 2 ^ w -> checked_sub w a b = if a <? b then None else Some (wrap w (a - b)).
Proof.
  intros Hb Ha. unfold checked_sub. destruct (Z.ltb_spec a b); [done|].
  by rewrite wrap_small by lia.
Qed.

Section Checked.
Context {AccountId : Type} `{Countable AccountId}.
Context {Source : Type} `{!StaticLookup Source AccountId}.
Context `{!BalanceType}.

Local Abbreviation State := (@State AccountId _ _).
Local Abbreviation Dispatch := (@Dispatch AccountId _ _).
Local Abbreviation Call := (@Call Source).
Local Abbreviation Origin := (@Origin AccountId).
Implicit Types (s : State) (who : AccountId) (id : AssetId).

(** ** The dispatch monad with panics *)

Definition CDispatch (A : Type) := State -> option (State * result A).

(** A statement that cannot panic. *)
Definition lift {A} (m : Dispatch A) : CDispatch A := fun s => Some (m s).

Definition cbind {A B} (c : CDispatch A) (k : A -> CDispatch B) : CDispatch B :=
  fun s => match c s with
           | None => None
           | Some (s', Ok a) => k a s'
           | Some (s', Err e) => Some (s', Err e)
           end.

(** The value of a checked operation, or the panic. *)
Definition arith (v : option Z) : CDispatch Z :=
  fun s => match v with Some z => Some (s, Ok z) | None => None end.
End Checked.

Declare Scope checked_scope.
Delimit Scope checked_scope with checked.
Notation "x <- c ;; k" := (cbind c (fun x => k))
  (at level 100, c at next level, k at level 200) : checked_scope.
Notation "c ;; k" := (cbind c (fun _ => k)) : checked_scope.

Section CheckedCalls.
Context {AccountId : Type} `{Countable AccountId}.
Context {Source : Type} `{!StaticLookup Source AccountId}.
Context `{!BalanceType}.
Local Open Scope checked_scope.

Local Abbreviation State := (@State AccountId _ _).
Local Abbreviation CDispatch := (@CDispatch AccountId _ _).
Local Abbreviation Call := (@Call Source).
Local Abbreviation Origin := (@Origin AccountId).
Implicit Types (s : State) (who : AccountId) (id : AssetId).

(** [<Map>::mutate(k, |v| *v op= x)]: get, the closure's checked
    arithmetic, insert. *)
Definition next_asset_id_mutate_checked (f : AssetId -> option AssetId) : CDispatch unit :=
  id <- lift next_asset_id ;;
  id' <- arith (f id) ;;
  lift (next_asset_id_mutate (fun _ => id')).

Definition balances_mutate_checked (k : AssetId * AccountId) (f : Z -> option Z) : CDispatch unit :=
  v <- lift (balances_get k) ;;
  v' <- arith (f v) ;;
  lift (balances_insert k v').

Definition total_supply_mutate_checked (id : AssetId) (f : Z -> option Z) : CDispatch unit :=
  v <- lift (gets (fun s => s.(TotalSupply) @@ id)) ;;
  v' <- arith (f v) ;;
  lift (total_supply_insert id v').

(** [fn issue], debug build. *)
Definition issue_checked (origin : Origin) (total : Z) : CDispatch unit :=
  origin <- lift (ensure_signed origin) ;;
  id <- lift next_asset_id ;;
  next_asset_id_mutate_checked (fun id => checked_add asset_id_bits id 1) ;;
  lift (balances_insert (id, origin) total) ;;
  lift (total_supply_insert id total) ;;
  lift (deposit_event (Issued id origin total)).

(** [fn transfer], debug build. *)
Definition transfer_checked (origin : Origin) (id : AssetId) (target : Source) (amount : Z)
  : CDispatch unit :=
  origin <- lift (ensure_signed origin) ;;
  let origin_account := (id, origin) in
  origin_balance <- lift (balances_get origin_account) ;;
  target <- lift (lookup_target target) ;;
  lift (ensure (negb (amount =? 0)) ZeroAmount) ;;
  lift (ensure (amount <=? origin_balance) InsufficientBalance) ;;
  lift (deposit_event (Transferred id origin target amount)) ;;
  new_balance <- arith (checked_sub balance_bits origin_balance amount) ;;
  lift (balances_insert origin_account new_balance) ;;
  balances_mutate_checked (id, target) (fun balance => checked_add balance_bits balance amount).

(** [fn destroy], debug build. *)
Definition destroy_checked (origin : Origin) (id : AssetId) : CDispatch unit :=
  origin <- lift (ensure_signed origin) ;;
  balance <- lift (balances_take (id, origin)) ;;
  lift (ensure (negb (balance =? 0)) ZeroBalance) ;;
  total_supply_mutate_checked id (fun total_supply => checked_sub balance_bits total_supply balance) ;;
  lift (deposit_event (Destroyed id origin balance)).

Definition dispatch_checked (origin : Origin) (c : Call) : CDispatch unit :=
  match c with
  | Call_issue total => issue_checked origin total
  | Call_transfer id target amount => transfer_checked origin id target amount
  | Call_destroy id => destroy_checked origin id
  end.

(** When a call of the debug build overflows: [issue] at the last [u32]
    id; [transfer], once its checks pass, when the target's balance after
    the debit plus [amount] leaves [T::Balance]; [destroy], once its check
    passes, when the supply is below the balance taken. *)
Definition panics (o : Origin) (c : Call) (s : State) : bool :=
  match o, c with
  | Signed who, Call_issue _ => 2 ^ asset_id_bits <=? s.(NextAssetId) + 1
  | Signed who, Call_transfer id src amount =>
      match lookup src with
      | Some tgt =>
          negb (amount =? 0) && (amount <=? balance s id who) &&
          (2 ^ balance_bits <=?
             (if decide (who = tgt) then balance s id who - amount else balance s id tgt) + amount)
      | None => false
      end
  | Signed who, Call_destroy id =>
      negb (balance s id who =? 0) && (total_supply s id <? balance s id who)
  | _, _ => false
  end.
End CheckedCalls.

Ltac unfold_checked :=
  cbv beta iota zeta delta [dispatch_checked issue_checked transfer_checked destroy_checked
    cbind lift arith next_asset_id_mutate_checked balances_mutate_checked
    total_supply_mutate_checked panics] in *;
  unfold_dispatch.

Section CheckedRun.
Context {AccountId : Type} `{Countable AccountId}.
Context {Source : Type} `{!StaticLookup Source AccountId}.
Context `{!BalanceType}.

Local Abbreviation State := (@State AccountId _ _).
Local Abbreviation Call := (@Call Source).
Local Abbreviation Origin := (@Origin AccountId).
Implicit Types (s : State) (who tgt : AccountId) (id : AssetId) (src : Source).

(** ** Each debug call is its release call, or a panic *)

Lemma issue_checked_run s who total :
  typed s ->
  issue_checked (Signed who) total s =
  if panics (Signed who) (Call_issue total) s then None else Some (issue (Signed who) total s).
Proof.
  intros [_ _ Hn]. rewrite issue_run. unfold_checked.
  rewrite checked_add_run by lia. by destruct (_ <=? _).
Qed.

Lemma transfer_checked_run s who id src amount :
  typed s -> 0 <= amount ->
  transfer_checked (Signed who) id src amount s =
  if panics (Signed who) (Call_transfer id src amount) s then None
  else Some (transfer (Signed who) id src amount s).
Proof.
  intros [Hb _ _] Ha. rewrite transfer_run. unfold_checked.
  destruct (lookup src) as [tgt|]; simpl; [|done].
  destruct (Z.eqb_spec amount 0); simpl; [done|].
  pose proof (map_in_range_zget _ _ (id, who) Hb balance_bits_nonneg) as Hw.
  pose proof (map_in_range_zget _ _ (id, tgt) Hb balance_bits_nonneg) as Ht.
  unfold balance in *. destruct (Z.leb_spec amount (s.(Balances) @@ (id, who))); simpl; [|done].
  rewrite checked_sub_run, (proj2 (Z.ltb_ge _ _)) by lia. state_simpl.
  set (M := map_insert (id, who) (wrap balance_bits (s.(Balances) @@ (id, who) - amount)) s.(Balances)).
  assert (HM : M @@ (id, tgt) = if decide (who = tgt) then s.(Balances) @@ (id, who) - amount
                                else s.(Balances) @@ (id, tgt)).
  { unfold M, map_insert. rewrite zget_insert, wrap_small by lia.
    repeat case_decide; simplify_eq; done. }
  rewrite <- HM, checked_add_run by (rewrite HM; case_decide; lia).
  by destruct (_ <=? _).
Qed.

Lemma destroy_checked_run s who id :
  typed s ->
  destroy_checked (Signed who) id s =
  if panics (Signed who) (Call_destroy id) s then None else Some (destroy (Signed who) id s).
Proof.
  intros [Hb Hs _]. rewrite destroy_run. unfold_checked.
  pose proof (map_in_range_zget _ _ (id, who) Hb balance_bits_nonneg) as Hw.
  pose proof (map_in_range_zget _ _ id Hs balance_bits_nonneg) as Ht.
  unfold balance, total_supply in *. simpl.
  destruct (Z.eqb_spec (s.(Balances) @@ (id, who)) 0); simpl; [done|].
  rewrite checked_sub_run by lia. by destruct (_ <? _).
Qed.
(** Under the invariant no checked operation overflows. *)
Lemma inv_no_panic s o c :
  inv s -> wf_call c = true -> id_available s c -> panics o c s = false.
Proof.
  intros Hi Hwf Hav. destruct o as [|who|]; [done| |done].
  destruct c as [total|id src amount|id]; simpl in Hwf, Hav |- *.
  - apply Z.leb_gt. lia.
  - destruct (lookup src) as [tgt|]; [|done].
    pose proof (inv_balance_range s id who Hi). pose proof (inv_balance_range s id tgt Hi).
    pose proof (inv_supply_bound s id Hi). pose proof (inv_pair_le_supply s id who tgt Hi).
    destruct (amount =? 0), (Z.leb_spec amount (balance s id who)); simpl; try done.
    apply Z.leb_gt. case_decide; [lia|]. specialize (H4 ltac:(done)). lia.
  - pose proof (inv_balance_le_supply s id who Hi).
    destruct (_ =? 0); simpl; [done|]. apply Z.ltb_ge. lia.
Qed.

(** C15: the debug build against the release build.  On every state whose
    values are of their Rust types, a well-typed call of the debug build
    panics exactly when [panics] says, and otherwise returns what the
    release build returns: the same state and the same result. *)
Theorem dispatch_checked_run s o c :
  typed s -> wf_call c = true ->
  dispatch_checked o c s = if panics o c s then None else Some (dispatch o c s).
Proof.
  intros Ht Hwf. destruct o as [|who|]; [by destruct c| |by destruct c].
  destruct c as [total|id src amount|id]; simpl in Hwf; cbn [dispatch_checked dispatch].
  - by apply issue_checked_run.
  - apply andb_true_iff in Hwf as [_ Hwf]. apply in_range_spec in Hwf.
    apply transfer_checked_run; [done | lia].
  - by apply destroy_checked_run.
Qed.

(** Under the invariant, a well-typed call of the debug build is its
    release call. *)
Lemma dispatch_checked_inv s o c :
  inv s -> wf_call c = true -> id_available s c ->
  dispatch_checked o c s = Some (dispatch o c s).
Proof.
  intros Hi Hwf Hav.
  pose proof (inv_no_panic s o c Hi Hwf Hav) as Hp. pose proof (inv_typed s Hi) as Ht.
  destruct o as [|who|]; [by destruct c| |by destruct c].
  destruct c as [total|id src amount|id]; simpl in Hwf; cbn [dispatch_checked dispatch].
  - by rewrite issue_checked_run, Hp.
  - apply andb_true_iff in Hwf as [_ Hwf]. apply in_range_spec in Hwf.
    by rewrite transfer_checked_run, Hp by (done || lia).
  - by rewrite destroy_checked_run, Hp.
Qed.

(** C14: the debug build never panics on a reachable state: every
    well-typed call (an [issue] while ids remain) returns exactly what the
    release build returns, so the overflow checks of a debug build never
    fire on the chain the invariant theorems speak of. *)
Theorem debug_build_never_panics s o c :
  safe_reachable s -> wf_call c = true -> id_available s c ->
  dispatch_checked o c s = Some (dispatch o c s).
Proof. intros Hr. apply dispatch_checked_inv, safe_reachable_inv, Hr. Qed.

(** C16: the boundary of the id space.  On a state whose values are of
    their Rust types, a signed [issue] of the debug build panics exactly
    when [NextAssetId] is the last [u32], the state in which the release
    build wraps [NextAssetId] to 0. *)
Theorem issue_checked_panics_iff s who total :
  typed s ->
  dispatch_checked (Signed who) (Call_issue total) s = None <->
  s.(NextAssetId) = 2 ^ asset_id_bits - 1.
Proof.
  intros Ht. pose proof (typed_next s Ht). cbn [dispatch_checked].
  rewrite issue_checked_run by done. simpl.
  destruct (Z.leb_spec (2 ^ asset_id_bits) (s.(NextAssetId) + 1)); split; intros; try done; lia.
Qed.
End CheckedRun.
