(* ===== verification/Block.v ===== *)
(** * Blocks: extrinsics applied one after another

    The SRML executive applies the extrinsics of a block in order, each
    against the state the previous one left, and a rejected extrinsic
    does not abort the block (spec, section 5: serial, non-reentrant
    execution).  [apply_extrinsics] is that fold of [dispatch]; it is not
    code of src/, so it is modelled from the spec.

    A block whose calls are well typed and whose issues fit in the id
    space is a sequence of safe steps ([block_star]), so the invariant
    holds along it.  Ordering: a call whose
    reads and writes stay inside a footprint ([local]) commutes with any
    call whose footprint is disjoint ([local_commute]); [transfer] and
    [destroy] are local with the keys they name ([call_fp]), so two such calls on
    disjoint accounts or assets give the same balances and supplies in
    either order ([extrinsics_commute]).  An [issue] writes only the
    entries of the id it hands out, so it commutes with such a call
    whose footprint avoids them ([issue_commutes]).

    Liveness: from every reachable state the block [burn_block], in
    which every account with a stored entry of an asset destroys it,
    brings the asset's supply and balances to zero
    ([supply_can_be_burned]). *)

From S2P Require Import Prelude Storage Token Invariant.
Import Token.

Section Block.
Context {AccountId : Type} `{Countable AccountId}.
Context {Source : Type} `{!StaticLookup Source AccountId}.
Context `{!BalanceType}.

Local Abbreviation State := (@State AccountId _ _).
Local Abbreviation Call := (@Call Source).
Local Abbreviation Origin := (@Origin AccountId).

Definition Extrinsic : Type := (Origin * Call)%type.

(** The executive's loop over a block: every extrinsic is dispatched on the
    state the previous one left, its outcome recorded. *)
Fixpoint apply_extrinsics (xts : list Extrinsic) (s : State) : State * list (result unit) :=
  match xts with
  | [] => (s, [])
  | (o, c) :: rest =>
      let '(s1, r) := dispatch o c s in
      let '(s2, rs) := apply_extrinsics rest s1 in
      (s2, r :: rs)
  end.

(** The number of [issue] calls of a block. *)
Fixpoint count_issues (xts : list Extrinsic) : Z :=
  match xts with
  | [] => 0
  | (_, c) :: rest => (if is_issue c then 1 else 0) + count_issues rest
  end.

Lemma count_issues_nonneg xts : 0 <= count_issues xts.
Proof. induction xts as [|[o c] xts IH]; simpl; [lia|]. destruct (is_issue c); lia. Qed.

Lemma apply_extrinsics_cons o c xts s :
  (apply_extrinsics ((o, c) :: xts) s).1 = (apply_extrinsics xts (dispatch o c s).1).1.
Proof. simpl. destruct (dispatch o c s), (apply_extrinsics xts _). reflexivity. Qed.

Lemma apply_extrinsics_cons_eq o c xts s :
  apply_extrinsics ((o, c) :: xts) s =
  ((apply_extrinsics xts (dispatch o c s).1).1,
   (dispatch o c s).2 :: (apply_extrinsics xts (dispatch o c s).1).2).
Proof. simpl. destruct (dispatch o c s), (apply_extrinsics xts _). reflexivity. Qed.

(** A block whose calls are well typed and whose issues fit in the id
    space is a sequence of safe steps. *)
Lemma block_star xts s :
  inv s -> Forall (fun x => wf_call x.2 = true) xts ->
  s.(NextAssetId) + count_issues xts < 2 ^ asset_id_bits ->
  star safe_step s (apply_extrinsics xts s).1.
Proof.
  revert s. induction xts as [|[o c] xts IH]; intros s Hi Hwf Hn; [apply star_refl|].
  apply Forall_cons in Hwf as [Hc Hwf]. simpl in Hc, Hn.
  pose proof (count_issues_nonneg xts).
  assert (Hav : id_available s c).
  { destruct c; simpl in *; try done. lia. }
  rewrite apply_extrinsics_cons.
  apply (star_step _ _ (dispatch o c s).1); [by constructor|].
  apply IH; [by apply call_preserves_inv | done |].
  rewrite (next_asset_id_dispatch s o c Hi Hav).
  destruct (is_issue c), (succeeded _); simpl; lia.
Qed.

(** ** Footprints and commutation *)

(** The balance entries and the supplies a call may read or write. *)
Record footprint := mkFootprint {
  fp_bal : list (AssetId * AccountId);
  fp_sup : list AssetId
}.

Definition agree_on (fp : footprint) (s1 s2 : State) : Prop :=
  (forall k, k ∈ fp_bal fp -> s1.(Balances) @@ k = s2.(Balances) @@ k) /\
  (forall i, i ∈ fp_sup fp -> s1.(TotalSupply) @@ i = s2.(TotalSupply) @@ i).

(** [op] keeps [NextAssetId], writes only inside [fp], and its outcome and
    its writes depend only on what the state holds inside [fp]. *)
Definition local (fp : footprint) (op : State -> State * result unit) : Prop :=
  (forall s, (op s).1.(NextAssetId) = s.(NextAssetId)) /\
  (forall s k, k ∉ fp_bal fp -> (op s).1.(Balances) @@ k = s.(Balances) @@ k) /\
  (forall s i, i ∉ fp_sup fp -> (op s).1.(TotalSupply) @@ i = s.(TotalSupply) @@ i) /\
  (forall s s', agree_on fp s s' -> (op s).2 = (op s').2 /\ agree_on fp (op s).1 (op s').1).

Lemma local_proper_ext fp op1 op2 :
  (forall s, op1 s = op2 s) -> local fp op2 -> local fp op1.
Proof. intros E. unfold local. by setoid_rewrite E. Qed.

Definition disjoint_fp (fp1 fp2 : footprint) : Prop :=
  Forall (fun k => k ∉ fp_bal fp2) (fp_bal fp1) /\ Forall (fun i => i ∉ fp_sup fp2) (fp_sup fp1).

#[global] Instance disjoint_fp_dec fp1 fp2 : Decision (disjoint_fp fp1 fp2).
Proof. unfold disjoint_fp. apply _. Defined.

Lemma disjoint_fp_sym fp1 fp2 : disjoint_fp fp1 fp2 -> disjoint_fp fp2 fp1.
Proof.
  intros [Hb Hs]. rewrite Forall_forall in Hb; rewrite Forall_forall in Hs.
  split; apply Forall_forall; intros x Hx1 Hx2; [by apply (Hb x) | by apply (Hs x)].
Qed.

(** A local call leaves everything outside its footprint alone. *)
Lemma local_agree_outside fp1 fp2 op s :
  local fp2 op -> disjoint_fp fp1 fp2 -> agree_on fp1 (op s).1 s.
Proof.
  intros (_ & Hb & Hs & _) [Db Ds]. rewrite Forall_forall in Db; rewrite Forall_forall in Ds.
  split; intros; [apply Hb | apply Hs]; auto.
Qed.

Lemma local_commute fp1 fp2 op1 op2 s :
  local fp1 op1 -> local fp2 op2 -> disjoint_fp fp1 fp2 ->
  (op2 (op1 s).1).2 = (op2 s).2 /\ (op1 (op2 s).1).2 = (op1 s).2 /\
  (op2 (op1 s).1).1.(Balances) ≡ₛ (op1 (op2 s).1).1.(Balances) /\
  (op2 (op1 s).1).1.(TotalSupply) ≡ₛ (op1 (op2 s).1).1.(TotalSupply) /\
  (op2 (op1 s).1).1.(NextAssetId) = (op1 (op2 s).1).1.(NextAssetId).
Proof.
  intros L1 L2 D. pose proof (disjoint_fp_sym _ _ D) as D'.
  pose proof (local_agree_outside fp1 fp2 op2 s L2 D) as A1.
  pose proof (local_agree_outside fp2 fp1 op1 s L1 D') as A2.
  destruct (proj2 (proj2 (proj2 L1)) _ _ A1) as [R1 B1].
  destruct (proj2 (proj2 (proj2 L2)) _ _ A2) as [R2 B2].
  destruct L1 as (N1 & O1 & P1 & _), L2 as (N2 & O2 & P2 & _).
  destruct D as [Db Ds], D' as [Db' Ds']. rewrite Forall_forall in Db; rewrite Forall_forall in Ds;
    rewrite Forall_forall in Db'; rewrite Forall_forall in Ds'.
  split; [done|]. split; [done|]. split; [|split].
  - intros k. destruct (decide (k ∈ fp_bal fp1)) as [K1|K1].
    + rewrite O2 by auto. rewrite (proj1 B1 k K1). reflexivity.
    + rewrite O1 by done. destruct (decide (k ∈ fp_bal fp2)) as [K2|K2].
      * by rewrite (proj1 B2 k K2).
      * by rewrite O2, O1, O2.
  - intros i. destruct (decide (i ∈ fp_sup fp1)) as [K1|K1].
    + rewrite P2 by auto. rewrite (proj2 B1 i K1). reflexivity.
    + rewrite P1 by done. destruct (decide (i ∈ fp_sup fp2)) as [K2|K2].
      * by rewrite (proj2 B2 i K2).
      * by rewrite P2, P1, P2.
  - by rewrite N2, N1, N1, N2.
Qed.
(** The keys [transfer] names: the caller's and the target's entries of
    the asset; it touches no supply. *)
Definition transfer_fp (id : AssetId) (who tgt : AccountId) : footprint :=
  mkFootprint [(id, who); (id, tgt)] [].

(** The keys [destroy] names: the caller's entry and the asset's supply. *)
Definition destroy_fp (id : AssetId) (who : AccountId) : footprint :=
  mkFootprint [(id, who)] [id].

Lemma transfer_local who id src tgt amount :
  lookup src = Some tgt ->
  local (transfer_fp id who tgt) (transfer (Signed who) id src amount).
Proof.
  intros Hl. split; [|split; [|split]].
  - intros s. rewrite transfer_run, Hl. by repeat case_match.
  - intros s [id' c] Hk. rewrite transfer_run, Hl. repeat case_match; try done.
    change (balance (transfer_post s id who tgt amount) id' c = balance s id' c).
    rewrite transfer_post_balance, !decide_False by set_solver. done.
  - intros s i _. rewrite transfer_run, Hl. by repeat case_match.
  - intros s s' Ha. pose proof Ha as [Hb _].
    assert (Hw : balance s id who = balance s' id who) by (apply Hb; set_solver).
    assert (Ht : balance s id tgt = balance s' id tgt) by (apply Hb; set_solver).
    rewrite !transfer_run, Hl, Hw. repeat case_match; try (split; [done | exact Ha]).
    split; [done|]. split; [|simpl; set_solver].
    intros [id' c] Hk.
    change (balance (transfer_post s id who tgt amount) id' c =
            balance (transfer_post s' id who tgt amount) id' c).
    rewrite !transfer_post_balance, Hw, Ht. repeat case_decide; auto; by apply Hb.
Qed.

Lemma destroy_local who id :
  local (destroy_fp id who) (destroy (Signed who) id).
Proof.
  split; [|split; [|split]].
  - intros s. rewrite destroy_run. by case_match.
  - intros s k Hk. rewrite destroy_run.
    case_match; simpl; apply zget_delete_ne; set_solver.
  - intros s i Hi. rewrite destroy_run. case_match; [done|].
    simpl. rewrite map_mutate_zget, decide_False by set_solver. done.
  - intros s s' [Hb Hs].
    assert (Hw : balance s id who = balance s' id who) by (apply Hb; set_solver).
    assert (Hi : s.(TotalSupply) @@ id = s'.(TotalSupply) @@ id) by (apply Hs; set_solver).
    rewrite !destroy_run, Hw. case_match; (split; [done|]); split; simpl;
      intros k Hk; apply list_elem_of_singleton in Hk as ->;
      rewrite ?zget_delete_eq, ?map_mutate_zget, ?decide_True, ?Hi by done; auto.
Qed.
(** A call rejected whatever the state reads is local with no footprint. *)
Lemma reject_local (e : Error) : local (mkFootprint [] []) (fun s => (s, Err e)).
Proof. repeat split; intros; try done; set_solver. Qed.

(** The footprint of an extrinsic: every call but [issue], which moves
    [NextAssetId], has one. *)
Definition call_fp (o : Origin) (c : Call) : option footprint :=
  match o, c with
  | Signed who, Call_transfer id src _ =>
      Some (match lookup src with
            | Some tgt => transfer_fp id who tgt
            | None => mkFootprint [] []
            end)
  | Signed who, Call_destroy id => Some (destroy_fp id who)
  | Signed _, Call_issue _ => None
  | _, _ => Some (mkFootprint [] [])
  end.

Lemma call_fp_local o c fp : call_fp o c = Some fp -> local fp (dispatch o c).
Proof.
  destruct o as [|who|], c as [total|id src amount|id]; intros Hc; simpl in Hc;
    try discriminate; injection Hc as <-;
    try (eapply local_proper_ext; [|apply reject_local];
         intros s; apply dispatch_unsigned; intros ? ?; discriminate).
  - destruct (lookup src) as [tgt|] eqn:Hl; [by apply transfer_local|].
    eapply local_proper_ext; [|apply (reject_local LookupFailed)].
    intros s. change (transfer (Signed who) id src amount s = (s, Err LookupFailed)).
    by rewrite transfer_run, Hl.
  - apply destroy_local.
Qed.
Lemma apply_extrinsics_two o1 c1 o2 c2 s :
  apply_extrinsics [(o1, c1); (o2, c2)] s =
  ((dispatch o2 c2 (dispatch o1 c1 s).1).1,
   [(dispatch o1 c1 s).2; (dispatch o2 c2 (dispatch o1 c1 s).1).2]).
Proof.
  simpl. destruct (dispatch o1 c1 s) as [s1 r1]. simpl.
  by destruct (dispatch o2 c2 s1).
Qed.

(** C22: ordering within a block.  Two extrinsics other than [issue] whose
    footprints are disjoint can be put in a block in either order: in both
    orders each gets the outcome it would get first in the block, and the
    two orders end with the same balances, supplies and next id (only the
    order of the events differs). *)
Theorem extrinsics_commute o1 c1 o2 c2 fp1 fp2 s :
  call_fp o1 c1 = Some fp1 -> call_fp o2 c2 = Some fp2 -> disjoint_fp fp1 fp2 ->
  (apply_extrinsics [(o1, c1); (o2, c2)] s).2 = [(dispatch o1 c1 s).2; (dispatch o2 c2 s).2] /\
  (apply_extrinsics [(o2, c2); (o1, c1)] s).2 = [(dispatch o2 c2 s).2; (dispatch o1 c1 s).2] /\
  (apply_extrinsics [(o1, c1); (o2, c2)] s).1.(Balances) ≡ₛ
    (apply_extrinsics [(o2, c2); (o1, c1)] s).1.(Balances) /\
  (apply_extrinsics [(o1, c1); (o2, c2)] s).1.(TotalSupply) ≡ₛ
    (apply_extrinsics [(o2, c2); (o1, c1)] s).1.(TotalSupply) /\
  (apply_extrinsics [(o1, c1); (o2, c2)] s).1.(NextAssetId) =
    (apply_extrinsics [(o2, c2); (o1, c1)] s).1.(NextAssetId).
Proof.
  intros H1 H2 D. rewrite !apply_extrinsics_two; simpl.
  destruct (local_commute fp1 fp2 (dispatch o1 c1) (dispatch o2 c2) s)
    as (R2 & R1 & B & T & N); [by apply call_fp_local .. | done |].
  by rewrite R1, R2.
Qed.
(** ** Burning an asset *)

(** The accounts with a stored entry of asset [id]. *)
Definition holders (s : State) (id : AssetId) : list AccountId :=
  (fun k => k.2) <$> filter (fun k => k.1 = id) (map_to_list s.(Balances)).*1.

(** A block in which every holder of [id] destroys its holding. *)
Definition burn_block (s : State) (id : AssetId) : list Extrinsic :=
  (fun c => (Signed c, Call_destroy id)) <$> holders s id.

Lemma holders_complete s id c v : s.(Balances) !! (id, c) = Some v -> c ∈ holders s id.
Proof.
  intros Hv. apply list_elem_of_fmap. exists (id, c). split; [done|].
  apply list_elem_of_filter. split; [done|].
  apply list_elem_of_fmap. exists ((id, c), v). split; [done|].
  by apply elem_of_map_to_list.
Qed.

(** [destroy] removes the caller's entry whether it succeeds or not. *)
Lemma destroy_entry who id (s : State) (k : AssetId * AccountId) :
  (destroy (Signed who) id s).1.(Balances) @@ k =
  if decide ((id, who) = k) then 0 else s.(Balances) @@ k.
Proof. rewrite destroy_run. case_match; apply zget_delete. Qed.

Lemma destroys_balances id (l : list AccountId) (s : State) (k : AssetId * AccountId) :
  (apply_extrinsics ((fun c => (Signed c, Call_destroy id)) <$> l) s).1.(Balances) @@ k =
  if decide (k.1 = id /\ k.2 ∈ l) then 0 else s.(Balances) @@ k.
Proof.
  revert s. induction l as [|c l IH]; intros s; simpl fmap.
  - simpl. case_decide as Hk; [set_solver | done].
  - rewrite apply_extrinsics_cons, IH. cbn [dispatch]. rewrite destroy_entry.
    destruct k as [id' c']; simpl.
    repeat case_decide; simplify_eq; set_solver.
Qed.

Lemma burn_block_star s id :
  inv s -> 0 <= id < 2 ^ asset_id_bits ->
  star safe_step s (apply_extrinsics (burn_block s id) s).1.
Proof.
  intros Hi Hid. apply block_star; [done| |].
  - apply Forall_fmap, Forall_forall. intros c _. simpl. by apply in_range_spec.
  - assert (Hc : forall l, count_issues ((fun c => (Signed c, Call_destroy (Source:=Source) id)) <$> l) = 0)
      by (induction l as [|c l IH]; [done|]; exact IH).
    unfold burn_block. rewrite Hc. pose proof (inv_next_range s Hi). lia.
Qed.

(** C13: burning is always possible.  From every reachable state the holders
    of an asset can burn all of it: the block of one [destroy] of the
    asset per account with a stored entry of it ends in a reachable state
    where the asset's supply and every balance of it are zero, and every
    balance of every other asset is as it was. *)
Theorem supply_can_be_burned s id :
  safe_reachable s -> 0 <= id < 2 ^ asset_id_bits ->
  safe_reachable (apply_extrinsics (burn_block s id) s).1 /\
  total_supply (apply_extrinsics (burn_block s id) s).1 id = 0 /\
  (forall c, balance (apply_extrinsics (burn_block s id) s).1 id c = 0) /\
  (forall id' c, id' <> id ->
     balance (apply_extrinsics (burn_block s id) s).1 id' c = balance s id' c).
Proof.
  intros Hr Hid. pose proof (safe_reachable_inv s Hr) as Hi.
  pose proof (star_trans _ _ _ _ Hr (burn_block_star s id Hi Hid)) as Hr'.
  assert (Hz : forall c, balance (apply_extrinsics (burn_block s id) s).1 id c = 0).
  { intros c. unfold balance, burn_block. rewrite destroys_balances. simpl.
    case_decide as Hc; [done|]. destruct (s.(Balances) !! (id, c)) as [v|] eqn:Hv.
    - destruct Hc. split; [done|]. by eapply holders_complete.
    - by apply zget_None. }
  split; [done|]. split; [|split; [done|]].
  - rewrite (inv_conservation _ (safe_reachable_inv _ Hr')). apply sum_where_zero.
    intros [id' c] Hk. unfold asset_of in Hk. apply bool_decide_eq_true in Hk.
    simpl in Hk; subst. apply Hz.
  - intros id' c Hne. unfold balance, burn_block. rewrite destroys_balances.
    simpl. case_decide; [tauto | done].
Qed.
(** ** [issue] against calls that do not touch the fresh id *)

(** [issue] writes only the entries of the id it hands out. *)
Lemma issue_agree_outside fp who total s :
  (s.(NextAssetId), who) ∉ fp_bal fp -> s.(NextAssetId) ∉ fp_sup fp ->
  agree_on fp (issue (Signed who) total s).1 s.
Proof.
  intros Hb Hs. rewrite issue_run. split; intros k Hk; simpl;
    apply zget_insert_ne; intros Heq; subst; contradiction.
Qed.

(** C19: ordering of an [issue].  An [issue] and a [transfer] or [destroy]
    whose footprint avoids the entries of the id the [issue] hands out
    can be applied in either order: each gets the outcome it gets first,
    and the two orders end with the same balances, supplies and next id. *)
Theorem issue_commutes who total o c fp s :
  call_fp o c = Some fp ->
  (s.(NextAssetId), who) ∉ fp_bal fp -> s.(NextAssetId) ∉ fp_sup fp ->
  (dispatch o c (issue (Signed who) total s).1).2 = (dispatch o c s).2 /\
  (issue (Signed who) total (dispatch o c s).1).2 = (issue (Signed who) total s).2 /\
  (dispatch o c (issue (Signed who) total s).1).1.(Balances) ≡ₛ
    (issue (Signed who) total (dispatch o c s).1).1.(Balances) /\
  (dispatch o c (issue (Signed who) total s).1).1.(TotalSupply) ≡ₛ
    (issue (Signed who) total (dispatch o c s).1).1.(TotalSupply) /\
  (dispatch o c (issue (Signed who) total s).1).1.(NextAssetId) =
    (issue (Signed who) total (dispatch o c s).1).1.(NextAssetId).
Proof.
  intros Hc Hb Hs. pose proof (call_fp_local o c fp Hc) as L.
  pose proof (issue_agree_outside fp who total s Hb Hs) as A.
  destruct (proj2 (proj2 (proj2 L)) _ _ A) as [R [AB AS]].
  destruct L as (N & O & P & _).
  rewrite !issue_run in *. rewrite N in *. simpl in *.
  split; [done|]. split; [done|]. split; [|split].
  - intros k. rewrite zget_insert. case_decide as Hk; subst.
    + rewrite O by done. simpl. apply zget_insert_eq.
    + destruct (decide (k ∈ fp_bal fp)) as [Hf|Hf]; [by apply AB|].
      rewrite !O by done. simpl. by apply zget_insert_ne.
  - intros i. rewrite zget_insert. case_decide as Hi; subst.
    + rewrite P by done. simpl. apply zget_insert_eq.
    + destruct (decide (i ∈ fp_sup fp)) as [Hf|Hf]; [by apply AS|].
      rewrite !P by done. simpl. by apply zget_insert_ne.
  - done.
Qed.
End Block.
