(* ===== verification/Events.v ===== *)
(** * The event log as an audit trail

    Every successful call of the module deposits one event of
    [decl_event!] (token.rs 67-76) recording what it did: [Issued],
    [Transferred] or [Destroyed].  A client that sees only the log can
    reconstruct the ledger from it: [balance_from_log] and
    [supply_from_log] sum, over the log, the change each event records
    for a balance or a supply.  The theorems show that on every
    reachable state these sums are the balances and supplies the
    storage holds ([log_reconstructs_ledger]), and that over any block,
    from any state, the log gains exactly one event per extrinsic that
    succeeds and none per rejection ([block_events_count]). *)

From S2P Require Import Prelude Storage Token Invariant Block.
Import Token.

(** The sum of [f] over a list. *)
Fixpoint sum_log {X : Type} (f : X -> Z) (l : list X) : Z :=
  match l with
  | [] => 0
  | x :: l => f x + sum_log f l
  end.

Lemma sum_log_app {X} (f : X -> Z) l1 l2 : sum_log f (l1 ++ l2) = sum_log f l1 + sum_log f l2.
Proof. induction l1 as [|x l1 IH]; simpl; lia. Qed.

Section Events.
Context {AccountId : Type} `{Countable AccountId}.
Context {Source : Type} `{!StaticLookup Source AccountId}.
Context `{!BalanceType}.

Local Abbreviation State := (@State AccountId _ _).
Local Abbreviation Call := (@Call Source).
Local Abbreviation Origin := (@Origin AccountId).
Local Abbreviation Event := (@Event AccountId).
Local Abbreviation Extrinsic := (@Extrinsic AccountId Source).
Implicit Types (s : State) (who c : AccountId) (id : AssetId).

(** ** What an event records *)

(** The change [ev] records for the balance of [c] in asset [id]: the
    sender of a transfer loses [amount], its target gains it (both, for a
    self-transfer). *)
Definition balance_delta id c (ev : Event) : Z :=
  match ev with
  | Issued id' who total => if decide ((id', who) = (id, c)) then total else 0
  | Transferred id' from to amount =>
      (if decide ((id', to) = (id, c)) then amount else 0) -
      (if decide ((id', from) = (id, c)) then amount else 0)
  | Destroyed id' who b => if decide ((id', who) = (id, c)) then - b else 0
  end.

(** The change [ev] records for the total supply of asset [id]. *)
Definition supply_delta id (ev : Event) : Z :=
  match ev with
  | Issued id' _ total => if decide (id' = id) then total else 0
  | Transferred _ _ _ _ => 0
  | Destroyed id' _ b => if decide (id' = id) then - b else 0
  end.

Definition balance_from_log (evs : list Event) id c : Z := sum_log (balance_delta id c) evs.
Definition supply_from_log (evs : list Event) id : Z := sum_log (supply_delta id) evs.

(** The storage agrees with the log. *)
Definition log_consistent s : Prop :=
  (forall id c, balance s id c = balance_from_log s.(events) id c) /\
  (forall id, total_supply s id = supply_from_log s.(events) id).

(** ** Each call keeps the storage and the log in step *)

Lemma log_consistent_equiv s s' : state_equiv s' s -> log_consistent s -> log_consistent s'.
Proof.
  intros (B & _ & T & Ev) [Hb Hs].
  split; intros; unfold balance, total_supply in *; [rewrite B, Ev; apply Hb | rewrite T, Ev; apply Hs].
Qed.

Lemma issue_log s who total :
  inv s -> log_consistent s -> log_consistent (issue (Signed who) total s).1.
Proof.
  intros Hi [Hb Hs]. pose proof (inv_conservation s Hi) as Hc.
  pose proof (holders_sum_fresh s s.(NextAssetId) Hi (Z.le_refl _)) as Hf.
  pose proof (inv_fresh s Hi s.(NextAssetId) who (Z.le_refl _)) as Hw.
  rewrite issue_run. unfold balance_from_log, supply_from_log, balance, total_supply in *.
  split; intros; unfold balance, total_supply, balance_from_log, supply_from_log; simpl;
    rewrite sum_log_app; simpl; rewrite zget_insert, <- ?Hb, <- ?Hs.
  - case_decide as E; simplify_eq; rewrite ?decide_True, ?decide_False by congruence; lia.
  - case_decide as E; subst; rewrite ?decide_True, ?decide_False by congruence;
      [rewrite Hc, Hf|]; lia.
Qed.

Lemma transfer_log s o id src amount :
  inv s -> 0 <= amount -> log_consistent s -> log_consistent (transfer o id src amount s).1.
Proof.
  intros Hi Ha Hl. destruct (transfer o id src amount s) as [s' [[]|e]] eqn:Hrun.
  - apply transfer_success in Hrun as (who & tgt & _ & _ & Hz & Hle & ->).
    destruct Hl as [Hb Hs]. unfold balance_from_log, supply_from_log in *.
    split; intros; unfold balance_from_log, supply_from_log; simpl; rewrite sum_log_app; simpl.
    + rewrite transfer_post_balance_inv, Hb by (done || lia).
      repeat case_decide; simplify_eq; rewrite ?Hb; lia.
    + rewrite <- Hs. unfold total_supply. simpl. lia.
  - pose proof (transfer_err_state o id src amount s e) as Hs.
    rewrite Hrun in Hs. simpl in Hs. by rewrite Hs.
Qed.

Lemma destroy_log s o id :
  inv s -> log_consistent s -> log_consistent (destroy o id s).1.
Proof.
  intros Hi Hl. destruct (destroy o id s) as [s' [[]|e]] eqn:Hrun.
  - apply destroy_success in Hrun as (who & _ & Hnz & Hz & Ht & Ho & Hso & _ & Hev). cbn [fst].
    pose proof (inv_balance_le_supply s id who Hi).
    pose proof (inv_balance_range s id who Hi). pose proof (inv_supply_bound s id Hi).
    destruct Hl as [Hb Hs]. unfold balance_from_log, supply_from_log in *.
    split; [intros id' c' | intros id']; unfold balance_from_log, supply_from_log;
      rewrite Hev, sum_log_app; simpl.
    + destruct (decide ((id, who) = (id', c'))) as [E|E]; simplify_eq.
      * rewrite Hz, <- Hb, ?decide_True by done. lia.
      * rewrite Ho, <- Hb, ?decide_False by congruence. lia.
    + destruct (decide (id = id')) as [<-|E].
      * rewrite Ht, wrap_small, <- Hs, ?decide_True by (done || lia). lia.
      * rewrite Hso, <- Hs, ?decide_False by congruence. lia.
  - pose proof (destroy_err_equiv o id s e) as He. rewrite Hrun in He.
    apply (log_consistent_equiv s); [by apply He | done].
Qed.

Lemma call_log s o call :
  inv s -> wf_call call = true -> log_consistent s -> log_consistent (dispatch o call s).1.
Proof.
  intros Hi Hwf Hl. destruct call as [total|id src amount|id]; simpl in Hwf |- *.
  - destruct o as [|who|]; [done| |done]. by apply issue_log.
  - apply andb_true_iff in Hwf as [_ Hwf]. apply in_range_spec in Hwf.
    apply transfer_log; [done | lia | done].
  - by apply destroy_log.
Qed.

(** C8: the log is a complete audit trail.  On every state reached from
    genesis, the balance of every account in every asset is the sum of
    the changes the event log records for it, and the total supply of
    every asset the sum of the issues and burns the log records. *)
Theorem log_reconstructs_ledger s id c :
  safe_reachable s ->
  balance s id c = balance_from_log s.(events) id c /\
  total_supply s id = supply_from_log s.(events) id.
Proof.
  intros Hr.
  assert (Hinv : inv s /\ log_consistent s).
  { apply (star_invariant safe_step (fun x => inv x /\ log_consistent x) genesis s); [| |exact Hr].
    - intros x y [Hi Hl] Hs. destruct Hs as [x o call Hwf Hav].
      split; [by apply call_preserves_inv | by apply call_log].
    - split; [apply inv_genesis | split; intros; reflexivity]. }
  destruct Hinv as [_ [Hb Hs]]. split; [apply Hb | apply Hs].
Qed.
(** ** One event per success *)

(** The number of extrinsics of a block that succeeded. *)
Fixpoint count_ok (rs : list (result unit)) : nat :=
  match rs with
  | [] => 0
  | r :: rs => ((if succeeded r then 1 else 0) + count_ok rs)%nat
  end.

(** A call appends one event when it succeeds and none when it is
    rejected, whatever the state. *)
Lemma dispatch_events_length o call s :
  length (dispatch o call s).1.(events) =
  (length s.(events) + if succeeded (dispatch o call s).2 then 1 else 0)%nat.
Proof.
  destruct o as [|who|];
    try (rewrite dispatch_unsigned by done; simpl; lia).
  destruct call as [total|id src amount|id]; cbn [dispatch].
  - rewrite issue_run. simpl. rewrite length_app. simpl. lia.
  - rewrite transfer_run. destruct (lookup src); [|simpl; lia].
    destruct (amount =? 0)%Z, (amount <=? balance s id who)%Z; unfold transfer_post; simpl;
      rewrite ?length_app; simpl; lia.
  - rewrite destroy_run. case_match; simpl; rewrite ?length_app; simpl; lia.
Qed.

(** C23: the log counts the successes.  From any state, over any block,
    the event log grows by exactly one event per extrinsic that succeeds:
    a rejected extrinsic, whatever storage it wrote, emits nothing. *)
Theorem block_events_count xts s :
  length (apply_extrinsics xts s).1.(events) =
  (length s.(events) + count_ok (apply_extrinsics xts s).2)%nat.
Proof.
  revert s. induction xts as [|[o c] xts IH]; intros s; [simpl; lia|].
  rewrite (apply_extrinsics_cons_eq o c xts s). cbn [fst snd count_ok].
  rewrite IH, dispatch_events_length. lia.
Qed.
End Events.
