(* ===== verification/DebugBlock.v ===== *)
(** * Blocks in the debug build

    In a debug build a panicking extrinsic traps the runtime: the block
    being built is abandoned, with every write and every event of the
    extrinsics before it.  [apply_extrinsics_checked] is the executive's
    loop of [Block.apply_extrinsics] over [Checked.dispatch_checked] with
    that behaviour ([None]); like [apply_extrinsics], it is modelled from
    the spec, since the executive is not code of this repository.

    The theorems compose [Checked] with [Block]: a block that fits the id
    space runs in the debug build exactly as in the release build from
    every reachable state ([debug_block_agrees]). *)

From S2P Require Import Prelude Storage Token Invariant Checked Block.
Import Token.

Section DebugBlock.
Context {AccountId : Type} `{Countable AccountId}.
Context {Source : Type} `{!StaticLookup Source AccountId}.
Context `{!BalanceType}.

Local Abbreviation State := (@State AccountId _ _).
Local Abbreviation Extrinsic := (@Extrinsic AccountId Source).
Implicit Types (s : State) (xts : list Extrinsic).

(** The executive's loop in a debug build: [None] when an extrinsic
    panics. *)
Fixpoint apply_extrinsics_checked (xts : list Extrinsic) (s : State)
  : option (State * list (result unit)) :=
  match xts with
  | [] => Some (s, [])
  | (o, c) :: rest =>
      match dispatch_checked o c s with
      | None => None
      | Some (s1, r) =>
          match apply_extrinsics_checked rest s1 with
          | None => None
          | Some (s2, rs) => Some (s2, r :: rs)
          end
      end
  end.

Lemma debug_block_inv xts s :
  inv s -> Forall (fun x => wf_call x.2 = true) xts ->
  s.(NextAssetId) + count_issues xts < 2 ^ asset_id_bits ->
  apply_extrinsics_checked xts s = Some (apply_extrinsics xts s).
Proof.
  revert s. induction xts as [|[o c] xts IH]; intros s Hi Hwf Hn; [done|].
  apply Forall_cons in Hwf as [Hc Hwf]. simpl in Hc, Hn.
  pose proof (count_issues_nonneg xts).
  assert (Hav : id_available s c) by (destruct c; simpl in *; try done; lia).
  rewrite (apply_extrinsics_cons_eq o c xts s). simpl.
  rewrite (dispatch_checked_inv s o c Hi Hc Hav).
  destruct (dispatch o c s) as [s1 r] eqn:Hd. rewrite IH.
  - simpl. by destruct (apply_extrinsics xts s1).
  - replace s1 with (dispatch o c s).1 by by rewrite Hd. by apply call_preserves_inv.
  - done.
  - pose proof (next_asset_id_dispatch s o c Hi Hav) as Hn'. rewrite Hd in Hn'. simpl in Hn'.
    rewrite Hn'. destruct (is_issue c), (succeeded r); simpl in *; lia.
Qed.

(** C17: blocks in the two builds.  From every reachable state, a block of
    well-typed extrinsics whose issues fit in the id space runs in the
    debug build to the same state and the same results as in the release
    build: no overflow check fires anywhere in it. *)
Theorem debug_block_agrees xts s :
  safe_reachable s -> Forall (fun x => wf_call x.2 = true) xts ->
  s.(NextAssetId) + count_issues xts < 2 ^ asset_id_bits ->
  apply_extrinsics_checked xts s = Some (apply_extrinsics xts s).
Proof. intros Hr. apply debug_block_inv, safe_reachable_inv, Hr. Qed.

End DebugBlock.
