(* ===== verification/Refinement.v ===== *)
(** * The Substrate storage implements the spec's ledger

    [substrate_store] instantiates the store contract [LedgerStore] with
    the module's storage: a write is [StorageMap::insert], the id advance
    is the [u32] [+= 1] of [issue].  [substrate_store_laws] discharges the
    contract, so every theorem of [Spec.Client] holds of it.

    [spec_dispatch] routes a call to the spec's atomic operation the way
    the spec's dispatch shell would (an unsigned origin or an unresolved
    target is the shell's rejection, [None]).  [dispatch_refines] shows
    that on every state satisfying the invariant each call of the module
    does what the spec's operation does: the same rejection with no
    observable write, or the same event and a state that reads the same
    as the spec's.  At the last [u32] id the two part: the spec rejects
    with [IdSpaceExhausted] while the module wraps ([issue_exhaustion]). *)

From S2P Require Import Prelude Storage Token Spec Invariant.
Import Token.

Section Refinement.
Context {AccountId : Type} `{Countable AccountId}.
Context {Source : Type} `{!StaticLookup Source AccountId}.
Context `{!BalanceType}.

Local Abbreviation State := (@State AccountId _ _).
Local Abbreviation Call := (@Call Source).
Implicit Types (s : State) (who : AccountId) (id : AssetId).

#[global] Instance substrate_store : LedgerStore State AccountId := {|
  getBalance s id a := balance s id a;
  setBalance s id a v := set_Balances (map_insert (id, a) v s.(Balances)) s;
  getSupply s id := total_supply s id;
  setSupply s id v := set_TotalSupply (map_insert id v s.(TotalSupply)) s;
  nextAssetId s := s.(NextAssetId);
  advanceAssetId s := set_NextAssetId (wrap asset_id_bits (s.(NextAssetId) + 1)) s;
  id_limit := 2 ^ asset_id_bits
|}.

#[global] Instance substrate_store_laws : LedgerStoreLaws State AccountId.
Proof.
  split; intros; cbn in *; unfold balance, total_supply, map_insert; state_simpl;
    rewrite ?zget_insert; try done.
  apply wrap_small. lia.
Qed.

(** What the spec's rejections are called in the module. *)
Definition impl_error (e : SpecError) : option Error :=
  match e with
  | SpecZeroAmount => Some ZeroAmount
  | SpecInsufficientBalance => Some InsufficientBalance
  | SpecZeroBalance => Some ZeroBalance
  | SpecIdSpaceExhausted => None
  end.

(** The spec's dispatch shell: authenticate, resolve the target, route. *)
Definition spec_dispatch (o : Origin) (c : Call) (s : State)
  : option (SpecError + (State * Event)) :=
  match o with
  | Signed who =>
      match c with
      | Call_issue total => Some (spec_issue who total s)
      | Call_transfer id src amount =>
          match lookup src with
          | Some tgt => Some (spec_transfer who id tgt amount s)
          | None => None
          end
      | Call_destroy id => Some (spec_destroy who id s)
      end
  | _ => None
  end.

(** Two states hold the same balances, supplies and next id. *)
Definition ledger_equiv (s1 s2 : State) : Prop :=
  s1.(Balances) ≡ₛ s2.(Balances) /\ s1.(TotalSupply) ≡ₛ s2.(TotalSupply) /\
  s1.(NextAssetId) = s2.(NextAssetId).

(** The relation between a run of the module and the spec's outcome. *)
Definition refines (r : State * result unit) (s : State)
  (spec : option (SpecError + (State * Event))) : Prop :=
  match spec with
  | None => r.1 = s /\ exists e, r.2 = Err e
  | Some (inl e) =>
      ledger_equiv r.1 s /\ r.1.(events) = s.(events) /\
      exists e', impl_error e = Some e' /\ r.2 = Err e'
  | Some (inr (s', ev)) =>
      r.2 = Ok tt /\ ledger_equiv r.1 s' /\ r.1.(events) = s.(events) ++ [ev]
  end.

Lemma ledger_equiv_refl s : ledger_equiv s s.
Proof. repeat split; reflexivity. Qed.

#[global] Instance ledger_equiv_equivalence : Equivalence ledger_equiv.
Proof.
  split; [intros s; apply ledger_equiv_refl | |].
  - intros s1 s2 (B & T & N). repeat split; by symmetry.
  - intros s1 s2 s3 (B1 & T1 & N1) (B2 & T2 & N2).
    repeat split; etrans; eauto.
Qed.

Lemma issue_refines s who total :
  inv s -> s.(NextAssetId) + 1 < 2 ^ asset_id_bits ->
  refines (issue (Signed who) total s) s (Some (spec_issue who total s)).
Proof.
  intros Hi Hn. pose proof (inv_next_range s Hi).
  rewrite issue_run. unfold spec_issue; cbn.
  destruct (Z.ltb_spec (NextAssetId s + 1) (2 ^ asset_id_bits)); [|lia].
  repeat split; reflexivity.
Qed.

Lemma transfer_refines s who id src tgt amount :
  inv s -> 0 <= amount -> lookup src = Some tgt ->
  refines (transfer (Signed who) id src amount s) s (Some (spec_transfer who id tgt amount s)).
Proof.
  intros Hi Ha Hl. rewrite transfer_run, Hl. unfold spec_transfer; cbn.
  destruct (Z.eqb_spec amount 0) as [|Hz].
  { repeat split; try reflexivity. eauto. }
  destruct (Z.ltb_spec (balance s id who) amount), (Z.leb_spec amount (balance s id who)); try lia.
  - repeat split; try reflexivity. eauto.
  - split; [done|]. split; [|done].
    unfold ledger_equiv; state_simpl.
    rewrite (transfer_post_no_wrap s id who tgt amount Hi) by lia.
    unfold map_insert, balance, transfer_post; state_simpl. repeat split; reflexivity.
Qed.

Lemma destroy_refines s who id :
  inv s -> refines (destroy (Signed who) id s) s (Some (spec_destroy who id s)).
Proof.
  intros Hi. rewrite destroy_run. unfold spec_destroy; cbn.
  destruct (Z.eqb_spec (balance s id who) 0) as [Hz|Hz].
  - split; [|split; [done | eauto]].
    repeat split; try reflexivity. by apply map_take_zero.
  - pose proof (inv_balance_le_supply s id who Hi).
    pose proof (inv_balance_range s id who Hi). pose proof (inv_supply_bound s id Hi).
    split; [done|]. split; [|done].
    unfold map_insert, map_mutate, balance, total_supply in *. state_simpl.
    split; [apply delete_equiv_insert_zero|]. split; [|done].
    rewrite wrap_small by lia. reflexivity.
Qed.
(** Each call refines the spec's operation routed by [spec_dispatch]. *)
Lemma call_refines o c s :
  inv s -> wf_call c = true -> id_available s c ->
  refines (dispatch o c s) s (spec_dispatch o c s).
Proof.
  intros Hi Hwf Hav. destruct o as [|who|];
    try (rewrite dispatch_unsigned by done; split; eauto).
  destruct c as [total|id src amount|id]; simpl in Hwf, Hav |- *.
  - by apply issue_refines.
  - apply andb_true_iff in Hwf as [_ Hwf]. apply in_range_spec in Hwf.
    destruct (lookup src) as [tgt|] eqn:Hl.
    + apply transfer_refines; [done | lia | done].
    + rewrite transfer_run, Hl. split; eauto.
  - by apply destroy_refines.
Qed.

(** C6: refinement.  On every state that satisfies the invariant, every
    well-typed call (an [issue] while ids remain) does what the spec's
    atomic operation does: the dispatch shell's rejections leave the state
    untouched, the spec's rejections are returned with no observable write
    and no event, and an accepted operation yields the spec's event and a
    state with the same balances, supplies and next id as the spec's. *)
Theorem dispatch_refines o c s :
  inv s -> wf_call c = true -> id_available s c ->
  refines (dispatch o c s) s (spec_dispatch o c s).
Proof. apply call_refines. Qed.

(** C10: where the two part.  When [NextAssetId] is the last [u32], the spec
    rejects an [issue] with [IdSpaceExhausted], while the module accepts
    it and wraps [NextAssetId] to 0. *)
Theorem issue_exhaustion who total s :
  s.(NextAssetId) = 2 ^ asset_id_bits - 1 ->
  spec_issue who total s = inl SpecIdSpaceExhausted /\
  (issue (Signed who) total s).2 = Ok tt /\
  (issue (Signed who) total s).1.(NextAssetId) = 0.
Proof.
  intros Hn. rewrite issue_run. unfold spec_issue; cbn. rewrite Hn.
  destruct (Z.ltb_spec (2 ^ asset_id_bits - 1 + 1) (2 ^ asset_id_bits)); [lia|].
  split; [done|]. split; [done|]. reflexivity.
Qed.
End Refinement.
