(* ===== verification/Trace.v ===== *)
(** * Refinement of whole blocks

    [Refinement.dispatch_refines] relates one call of the module to one
    operation of the spec.  This file lifts it along a block, in the
    style of a lock-step simulation diagram: the spec runs the same
    extrinsics on its own state ([spec_run], each rejection leaving that
    state alone, as the spec's operations are atomic), and the module's
    run stays related to it by [ledger_equiv] (same balances and
    supplies as any read sees them, same next id) with, extrinsic by
    extrinsic, the same verdict ([outcome_rel]) and the same events in
    the log ([accepted_events]).

    The diagram needs the spec's operations to respect [ledger_equiv]
    ([spec_dispatch_equiv]), so that the spec state may drift from the
    module's state by stored zero entries and still be stepped. *)

From S2P Require Import Prelude Storage Token Spec Invariant Block Refinement.
Import Token.

Section Trace.
Context {AccountId : Type} `{Countable AccountId}.
Context {Source : Type} `{!StaticLookup Source AccountId}.
Context `{!BalanceType}.

Local Abbreviation State := (@State AccountId _ _).
Local Abbreviation Call := (@Call Source).
Local Abbreviation Origin := (@Origin AccountId).
Local Abbreviation Extrinsic := (@Extrinsic AccountId Source).
Local Abbreviation Event := (@Event AccountId).
Implicit Types (s t : State).

(** ** The spec's operations respect [ledger_equiv] *)

Lemma ledger_equiv_balance s t id a : ledger_equiv s t -> getBalance s id a = getBalance t id a.
Proof. intros (B & _ & _). apply B. Qed.

Lemma ledger_equiv_supply s t id : ledger_equiv s t -> getSupply s id = getSupply t id.
Proof. intros (_ & T & _). apply T. Qed.

Lemma ledger_equiv_next s t : ledger_equiv s t -> nextAssetId s = nextAssetId t.
Proof. intros (_ & _ & N). apply N. Qed.

Lemma ledger_equiv_setBalance s t id a v :
  ledger_equiv s t -> ledger_equiv (setBalance s id a v) (setBalance t id a v).
Proof. intros (B & T & N). repeat split; cbn; [by rewrite B | done | done]. Qed.

Lemma ledger_equiv_setSupply s t id v :
  ledger_equiv s t -> ledger_equiv (setSupply s id v) (setSupply t id v).
Proof. intros (B & T & N). repeat split; cbn; [done | by rewrite T | done]. Qed.

Lemma ledger_equiv_advance s t : ledger_equiv s t -> ledger_equiv (advanceAssetId s) (advanceAssetId t).
Proof. intros (B & T & N). repeat split; cbn; [done | done | by rewrite N]. Qed.

#[local] Hint Resolve ledger_equiv_setBalance ledger_equiv_setSupply ledger_equiv_advance : ledger.

(** Two outcomes of [spec_dispatch] agree: the same rejection, or the same
    event and equivalent states. *)
Definition spec_result_equiv (r1 r2 : option (SpecError + (State * Event))) : Prop :=
  match r1, r2 with
  | None, None => True
  | Some (inl e1), Some (inl e2) => e1 = e2
  | Some (inr (s1, ev1)), Some (inr (s2, ev2)) => ledger_equiv s1 s2 /\ ev1 = ev2
  | _, _ => False
  end.

Lemma spec_dispatch_equiv o c s t :
  ledger_equiv s t -> spec_result_equiv (spec_dispatch o c s) (spec_dispatch o c t).
Proof.
  intros E. destruct o as [|who|]; [done| |done].
  destruct c as [total|id src amount|id]; cbn [spec_dispatch].
  - unfold spec_issue. rewrite (ledger_equiv_next s t E).
    case_match; [split; [eauto with ledger | done] | done].
  - case_match; [|done]. unfold spec_transfer.
    rewrite !get_set_balance, !(ledger_equiv_balance s t _ _ E).
    repeat case_match; try done; split; eauto with ledger.
  - unfold spec_destroy. rewrite (ledger_equiv_balance s t _ _ E), (ledger_equiv_supply s t _ E).
    case_match; [done|]. split; [eauto with ledger | done].
Qed.
(** ** The spec's run of a block *)

(** What the spec reports for one extrinsic: accepted with its event, or
    rejected by the dispatch shell ([None]) or by the operation. *)
Inductive Outcome :=
| Accepted (ev : Event)
| Rejected (e : option SpecError).

Definition spec_apply (o : Origin) (c : Call) (t : State) : State * Outcome :=
  match spec_dispatch o c t with
  | None => (t, Rejected None)
  | Some (inl e) => (t, Rejected (Some e))
  | Some (inr (t', ev)) => (t', Accepted ev)
  end.

Fixpoint spec_run (xts : list Extrinsic) (t : State) : State * list Outcome :=
  match xts with
  | [] => (t, [])
  | (o, c) :: rest =>
      let '(t1, out) := spec_apply o c t in
      let '(t2, outs) := spec_run rest t1 in
      (t2, out :: outs)
  end.

(** The events the spec's run reports, in order. *)
Definition accepted_events (outs : list Outcome) : list Event :=
  outs ≫= (fun out => match out with Accepted ev => [ev] | Rejected _ => [] end).

Lemma accepted_events_cons out outs :
  accepted_events (out :: outs) = accepted_events [out] ++ accepted_events outs.
Proof. unfold accepted_events. simpl. by rewrite app_nil_r. Qed.

(** The module's verdict and the spec's agree. *)
Definition outcome_rel (r : result unit) (out : Outcome) : Prop :=
  match r, out with
  | Ok _, Accepted _ => True
  | Err _, Rejected None => True
  | Err e, Rejected (Some se) => impl_error se = Some e
  | _, _ => False
  end.

Lemma spec_run_cons_eq o c xts t :
  spec_run ((o, c) :: xts) t =
  ((spec_run xts (spec_apply o c t).1).1,
   (spec_apply o c t).2 :: (spec_run xts (spec_apply o c t).1).2).
Proof. simpl. destruct (spec_apply o c t), (spec_run xts _). reflexivity. Qed.

(** One square of the diagram: a call of the module on [s] and the spec's
    operation on an equivalent [t] give equivalent states, agreeing
    verdicts and the same new events. *)
Lemma step_refines o c s t :
  inv s -> ledger_equiv s t -> wf_call c = true -> id_available s c ->
  ledger_equiv (dispatch o c s).1 (spec_apply o c t).1 /\
  outcome_rel (dispatch o c s).2 (spec_apply o c t).2 /\
  (dispatch o c s).1.(events) = s.(events) ++ accepted_events [(spec_apply o c t).2].
Proof.
  intros Hi E Hwf Hav. pose proof (call_refines o c s Hi Hwf Hav) as R.
  pose proof (spec_dispatch_equiv o c s t E) as Q.
  unfold spec_apply, refines in *.
  destruct (dispatch o c s) as [s1 r]; simpl in *.
  destruct (spec_dispatch o c s) as [[e|[s' ev]]|], (spec_dispatch o c t) as [[e2|[t' ev2]]|];
    simpl in Q |- *; try contradiction.
  - destruct R as (E1 & Hev & e' & He & ->). subst e2.
    rewrite Hev, app_nil_r. split; [by etrans | split; [exact He | done]].
  - destruct R as (-> & E1 & Hev). destruct Q as [Q ->].
    split; [by etrans|]. done.
  - destruct R as (-> & e' & ->). rewrite app_nil_r. split; [done|done].
Qed.

(** C7: block refinement.  From a state satisfying the invariant, a block
    of well-typed extrinsics whose issues fit in the id space, run by the
    module and by the spec from equivalent states, ends in equivalent
    states; extrinsic by extrinsic the two give the same verdict (the
    module's error for the spec's rejection), and the module's log gains
    exactly the events of the extrinsics the spec accepts, in order. *)
Theorem block_refines xts s t :
  inv s -> ledger_equiv s t -> Forall (fun x => wf_call x.2 = true) xts ->
  s.(NextAssetId) + count_issues xts < 2 ^ asset_id_bits ->
  ledger_equiv (apply_extrinsics xts s).1 (spec_run xts t).1 /\
  Forall2 outcome_rel (apply_extrinsics xts s).2 (spec_run xts t).2 /\
  (apply_extrinsics xts s).1.(events) = s.(events) ++ accepted_events (spec_run xts t).2.
Proof.
  revert s t. induction xts as [|[o c] xts IH]; intros s t Hi E Hwf Hn.
  { simpl. rewrite app_nil_r. split; [done | split; [constructor | done]]. }
  apply Forall_cons in Hwf as [Hc Hwf]. simpl in Hc, Hn.
  pose proof (count_issues_nonneg xts).
  assert (Hav : id_available s c) by (destruct c; simpl in *; try done; lia).
  destruct (step_refines o c s t Hi E Hc Hav) as (E1 & R1 & Ev1).
  destruct (IH (dispatch o c s).1 (spec_apply o c t).1) as (E2 & R2 & Ev2);
    [by apply call_preserves_inv | done | done | |].
  { rewrite (next_asset_id_dispatch s o c Hi Hav). destruct (is_issue c), (succeeded _); simpl; lia. }
  rewrite apply_extrinsics_cons_eq, spec_run_cons_eq. cbn [fst snd].
  split; [done|]. split; [by constructor|].
  rewrite Ev2, Ev1, <- app_assoc. f_equal. symmetry. apply accepted_events_cons.
Qed.
End Trace.
