(* ===== verification/Scenarios.v ===== *)
(** * Concrete runs of the [token] module

    The module instantiated as a runtime would: [T::Balance = u128],
    accounts are [nat] and [T::Lookup] is [IdentityLookup].  States
    built by the spec's scenarios serve as inputs; the witnesses apply the
    general theorems to these states; and the last section shows that
    after 2^32 issues [NextAssetId] wraps to an id still in circulation,
    after which the total supply of that asset no longer equals the sum
    of its balances. *)

From S2P Require Import Prelude Storage Token Spec Invariant Checked Block Events DebugBlock Refinement Trace.
Import Token.

#[export] Instance u128 : BalanceType := {| balance_bits := 128; balance_bits_pos := eq_refl |}.

Definition Alice : nat := 1.
Definition Bob : nat := 2.
Definition Carol : nat := 3.

Abbreviation St := (@State nat _ _).
Abbreviation NatCall := (@Call nat).

Definition g : St := genesis.

(** Scenario A: [issue(Alice, 1000)]. *)
Definition sA : St := (dispatch (Signed Alice) (Call_issue 1000) g).1.
(** Scenario B: after A, [transfer(Alice, 0, Bob, 300)]. *)
Definition sB : St := (dispatch (Signed Alice) (Call_transfer 0 Bob 300) sA).1.

(** Discharge [safe_reachable] of a state built by dispatches from genesis. *)
Ltac reach :=
  repeat match goal with
    | |- safe_reachable _ => unfold safe_reachable
    | |- star _ genesis genesis => apply star_refl
    | |- star _ g g => apply star_refl
    | |- star safe_step _ (dispatch ?o ?c ?s).1 =>
        apply (star_trans _ _ s); [| apply star_one; constructor; [reflexivity | vm_compute; reflexivity]]
    | |- star safe_step _ ?s => unfold s
  end.

Lemma reach_sB : safe_reachable sB.
Proof. reach. Qed.

(** Scenario C: after B, a transfer of zero. *)
Definition runC := dispatch (Signed Alice) (Call_transfer 0 Bob 0) sB.
(** Scenario E: after B, Bob destroys his holding. *)
Definition runE := dispatch (Signed Bob) (Call_destroy 0) sB.

(** ** Witnesses: the general theorems at these states *)

Lemma conservation_witness : safe_reachable sB /\ total_supply sB 0 = holders_sum sB 0.
Proof. split; [reach | apply conservation; reach]. Defined.

Lemma safe_step_preserves_inv_witness :
  inv sB /\ safe_step sB (dispatch (Signed Bob) (Call_destroy (Source:=nat) 0) sB).1 /\
  inv (dispatch (Signed Bob) (Call_destroy (Source:=nat) 0) sB).1.
Proof.
  assert (Hi : inv sB) by (apply safe_reachable_inv; reach).
  assert (Hs : safe_step sB (dispatch (Signed Bob) (Call_destroy (Source:=nat) 0) sB).1)
    by (constructor; [reflexivity | exact I]).
  split; [exact Hi|]. split; [exact Hs|].
  exact (safe_step_preserves_inv _ _ Hi Hs).
Defined.

Lemma transfer_moves_amount_witness :
  safe_reachable sA /\ 0 <= 300 /\
  transfer (Signed Alice) 0 Bob 300 sA = (sB, Ok tt) /\
  exists who tgt, Signed Alice = Signed who /\ lookup Bob = Some tgt /\
    (who <> tgt -> balance sB 0 who = balance sA 0 who - 300 /\
                   balance sB 0 tgt = balance sA 0 tgt + 300) /\
    (who = tgt -> balance sB 0 who = balance sA 0 who) /\
    (forall id' c, (id', c) <> (0, who) -> (id', c) <> (0, tgt) ->
                   balance sB id' c = balance sA id' c) /\
    (forall id', total_supply sB id' = total_supply sA id') /\
    sB.(NextAssetId) = sA.(NextAssetId) /\
    sB.(events) = sA.(events) ++ [Transferred 0 who tgt 300].
Proof.
  assert (Hr : safe_reachable sA) by reach.
  assert (Hrun : transfer (Signed Alice) 0 Bob 300 sA = (sB, Ok tt)) by (vm_compute; reflexivity).
  split; [exact Hr|]. split; [lia|]. split; [exact Hrun|].
  exact (transfer_moves_amount sA (Signed Alice) 0 Bob 300 sB Hr ltac:(lia) Hrun).
Defined.

Lemma dispatch_err_equiv_witness :
  runC.2 = Err ZeroAmount /\ state_equiv runC.1 sB.
Proof.
  split; [vm_compute; reflexivity|].
  apply (dispatch_err_equiv (Signed Alice) (Call_transfer 0 Bob 0) sB ZeroAmount).
  vm_compute; reflexivity.
Defined.

Lemma balances_bounded_witness :
  safe_reachable sB /\
  0 <= balance sB 0 Alice /\ balance sB 0 Alice <= total_supply sB 0 /\
  total_supply sB 0 < 2 ^ balance_bits /\
  (Alice <> Bob -> balance sB 0 Alice + balance sB 0 Bob <= total_supply sB 0).
Proof.
  assert (Hr : safe_reachable sB) by reach.
  split; [exact Hr | exact (balances_bounded sB 0 Alice Bob Hr)].
Defined.

Lemma next_asset_id_step_witness :
  safe_reachable sB /\ id_available sB (Call_issue (Source:=nat) 5) /\
  (dispatch (Signed Carol) (Call_issue 5) sB).1.(NextAssetId) =
  sB.(NextAssetId) + (if is_issue (Call_issue (Source:=nat) 5) &&
                         succeeded (dispatch (Signed Carol) (Call_issue 5) sB).2 then 1 else 0).
Proof.
  assert (Hr : safe_reachable sB) by reach.
  assert (Hav : id_available sB (Call_issue (Source:=nat) 5)) by (vm_compute; reflexivity).
  split; [exact Hr|]. split; [exact Hav|].
  exact (next_asset_id_step sB (Signed Carol) (Call_issue 5) Hr Hav).
Defined.

Lemma issued_ids_increase_witness :
  safe_reachable g /\ wf_call (Call_issue (Source:=nat) 1000) = true /\
  id_available g (Call_issue (Source:=nat) 1000) /\
  (dispatch (Signed Alice) (Call_issue (Source:=nat) 1000) g).2 = Ok tt /\
  star safe_step (dispatch (Signed Alice) (Call_issue (Source:=nat) 1000) g).1 sB /\
  g.(NextAssetId) < sB.(NextAssetId).
Proof.
  assert (Hr : safe_reachable g) by apply star_refl.
  assert (Hwf : wf_call (Call_issue (Source:=nat) 1000) = true) by reflexivity.
  assert (Hav : id_available g (Call_issue (Source:=nat) 1000)) by (vm_compute; reflexivity).
  assert (Hok : (dispatch (Signed Alice) (Call_issue (Source:=nat) 1000) g).2 = Ok tt)
    by (vm_compute; reflexivity).
  assert (Hs : star safe_step (dispatch (Signed Alice) (Call_issue (Source:=nat) 1000) g).1 sB)
    by (unfold sB, sA; apply star_one; constructor; [reflexivity | exact I]).
  do 4 (split; [assumption|]). split; [exact Hs|].
  exact (issued_ids_increase g (Signed Alice) 1000 sB Hr Hwf Hav Hok Hs).
Defined.

Lemma unissued_assets_empty_witness :
  safe_reachable sB /\ sB.(NextAssetId) <= 1 /\ balance sB 1 Alice = 0 /\ total_supply sB 1 = 0.
Proof.
  assert (Hr : safe_reachable sB) by reach.
  assert (Hle : sB.(NextAssetId) <= 1) by (vm_compute; discriminate).
  split; [exact Hr|]. split; [exact Hle|].
  exact (unissued_assets_empty sB 1 Alice Hr Hle).
Defined.

Lemma destroy_burns_balance_witness :
  safe_reachable sB /\ destroy (Signed Bob) 0 sB = runE /\
  exists who, Signed Bob = Signed who /\ balance runE.1 0 who = 0 /\
    total_supply runE.1 0 = total_supply sB 0 - balance sB 0 who /\
    runE.1.(events) = sB.(events) ++ [Destroyed 0 who (balance sB 0 who)].
Proof.
  assert (Hr : safe_reachable sB) by reach.
  assert (Hrun : destroy (Signed Bob) 0 sB = (runE.1, Ok tt)) by (vm_compute; reflexivity).
  split; [exact Hr|]. split; [rewrite Hrun; vm_compute; reflexivity|].
  exact (destroy_burns_balance sB (Signed Bob) 0 runE.1 Hr Hrun).
Defined.

(** ** Exhausting the asset-id space *)

(** Alice issues an empty asset. *)
Definition issue_zero (s : St) : St := (dispatch (Signed Alice) (Call_issue (Source:=nat) 0) s).1.

Lemma issue_zero_step (s : St) : step s (issue_zero s).
Proof. constructor. reflexivity. Qed.

(** [k] empty issues starting from an id in [1, 2^32 - k] hand out the
    ids [n .. n + k - 1], none of which is 0: asset 0 is untouched, and
    [NextAssetId] ends at [(n + k) mod 2^32]. *)
Lemma iter_issue_zero (k : nat) (s : St) :
  1 <= s.(NextAssetId) < 2 ^ asset_id_bits -> s.(NextAssetId) + Z.of_nat k <= 2 ^ asset_id_bits ->
  map_Forall (fun _ v => 0 <= v) s.(Balances) ->
  star step s (Nat.iter k issue_zero s) /\
  (Nat.iter k issue_zero s).(NextAssetId) = wrap asset_id_bits (s.(NextAssetId) + Z.of_nat k) /\
  (forall c, balance (Nat.iter k issue_zero s) 0 c = balance s 0 c) /\
  total_supply (Nat.iter k issue_zero s) 0 = total_supply s 0 /\
  map_Forall (fun _ v => 0 <= v) (Nat.iter k issue_zero s).(Balances).
Proof.
  intros Hn. induction k as [|k IH]; intros Hk Hpos.
  - change (Nat.iter 0 issue_zero s) with s. rewrite Nat2Z.inj_0, Z.add_0_r, wrap_small by lia.
    repeat split; auto using star_refl.
  - destruct IH as (Hs & Hnext & Hb & Ht & Hp); [lia | done |].
    rewrite Nat.iter_succ. set (s' := Nat.iter k issue_zero s) in *.
    rewrite wrap_small in Hnext by lia.
    split; [apply (star_trans _ _ s'); [done | apply star_one, issue_zero_step]|].
    unfold issue_zero, dispatch. rewrite issue_run. unfold balance, total_supply in *.
    state_simpl. rewrite Hnext, Nat2Z.inj_succ.
    split; [f_equal; lia|]. split; [|split].
    + intros c. rewrite zget_insert_ne by (intros [=]; lia). apply Hb.
    + rewrite zget_insert_ne by lia. apply Ht.
    + apply map_Forall_insert_2; [lia | done].
Qed.


(** [K] empty issues with [K = 2^32 - 1] bring the next id back to 0. *)
Lemma reissue_after_wrap (K : nat) :
  Z.of_nat K = 2 ^ asset_id_bits - 1 ->
  exists s : St, reachable s /\ total_supply s 0 = 5 /\ balance s 0 Bob = 300 /\
                 total_supply s 0 <> holders_sum s 0.
Proof.
  intros HK.
  assert (Hi : inv sB) by (apply safe_reachable_inv; reach).
  assert (Hn : sB.(NextAssetId) = 1) by reflexivity.
  destruct (iter_issue_zero K sB) as (Hs & Hnext & Hb & _ & Hp).
  { rewrite Hn. unfold asset_id_bits. lia. }
  { rewrite Hn, HK. lia. }
  { eapply map_in_range_nonneg, Hi. }
  remember (Nat.iter K issue_zero sB) as sW eqn:HW. clear HW.
  rewrite Hn, HK in Hnext.
  replace (wrap asset_id_bits (1 + (2 ^ asset_id_bits - 1))) with 0 in Hnext by reflexivity.
  set (sX := (dispatch (Signed Alice) (Call_issue (Source:=nat) 5) sW).1).
  assert (HX : sX = mkState (<[(0, Alice):=5]> sW.(Balances)) (wrap asset_id_bits 1)
                            (<[0:=5]> sW.(TotalSupply)) (sW.(events) ++ [Issued 0 Alice 5])).
  { unfold sX, dispatch. rewrite issue_run, Hnext. reflexivity. }
  assert (HA : balance sX 0 Alice = 5) by (rewrite HX; apply zget_insert_eq).
  assert (HB : balance sX 0 Bob = 300).
  { rewrite HX. unfold balance. state_simpl. rewrite zget_insert_ne by discriminate.
    transitivity (balance sB 0 Bob); [apply Hb | reflexivity]. }
  assert (HT : total_supply sX 0 = 5) by (rewrite HX; apply zget_insert_eq).
  assert (Hsum : balance sX 0 Alice + balance sX 0 Bob <= holders_sum sX 0).
  { apply sum_where_ge_two; [| apply asset_of_same | apply asset_of_same | discriminate].
    rewrite HX. apply map_Forall_insert_2; [lia | exact Hp]. }
  exists sX. split; [|split; [exact HT | split; [exact HB | lia]]].
  apply (star_trans _ _ sW).
  - apply (star_trans _ _ sB); [apply safe_reachable_reachable; reach | exact Hs].
  - apply star_one. apply (step_dispatch sW (Signed Alice) (Call_issue 5)). reflexivity.
Qed.

(** C9: [NextAssetId += 1] wraps.  A state is reachable from genesis by
    well-typed calls (Alice issues 1000 units of asset 0 and sends 300 to
    Bob, then issues 2^32 - 1 empty assets, then 5 units of a new one) in
    which the id 0 has been handed out a second time: the total supply of
    asset 0 is 5 while Bob still holds 300 of it, so the supply no longer
    equals the sum of the balances. *)
Theorem next_asset_id_wrap_breaks_conservation :
  exists s : St, reachable s /\ total_supply s 0 = 5 /\ balance s 0 Bob = 300 /\
                 total_supply s 0 <> holders_sum s 0.
Proof.
  apply (reissue_after_wrap (Z.to_nat (2 ^ asset_id_bits - 1))).
  apply Z2Nat.id. unfold asset_id_bits. lia.
Qed.


(** Alice sends her remaining 700 to Bob: her entry now stores 0. *)
Definition sZ : St := (dispatch (Signed Alice) (Call_transfer 0 Bob 700) sB).1.
Definition runZ := dispatch (Signed Alice) (Call_destroy (Source:=nat) 0) sZ.

(** C29: a rejected [destroy] is not write-free.  [take] removes the caller's
    entry before the zero check and the SRML executive keeps that write,
    so the state after the rejection differs from the state before; it is
    only equivalent to it (every read agrees). *)
Theorem destroy_rejected_still_writes :
  runZ.2 = Err ZeroBalance /\ runZ.1 <> sZ /\ state_equiv runZ.1 sZ /\
  sZ.(Balances) !! (0, Alice) = Some 0 /\ runZ.1.(Balances) !! (0, Alice) = None.
Proof.
  assert (Hz : sZ.(Balances) !! (0, Alice) = Some 0) by (vm_compute; reflexivity).
  assert (Hn : runZ.1.(Balances) !! (0, Alice) = None) by (vm_compute; reflexivity).
  split; [vm_compute; reflexivity|]. split; [|split; [|done]].
  - intros Heq. rewrite Heq, Hz in Hn. discriminate.
  - apply (destroy_err_equiv _ _ _ ZeroBalance). vm_compute; reflexivity.
Qed.

(** ** Witnesses for the refinement *)

Lemma dispatch_refines_witness :
  inv sB /\ wf_call (Call_transfer 0 Bob 9999) = true /\
  id_available sB (Call_transfer 0 Bob 9999) /\
  refines (dispatch (Signed Alice) (Call_transfer 0 Bob 9999) sB) sB
          (spec_dispatch (Signed Alice) (Call_transfer 0 Bob 9999) sB).
Proof.
  assert (Hi : inv sB) by (apply safe_reachable_inv; reach).
  assert (Hwf : wf_call (Call_transfer 0 Bob 9999) = true) by reflexivity.
  split; [exact Hi|]. split; [exact Hwf|]. split; [exact I|].
  exact (dispatch_refines (Signed Alice) (Call_transfer 0 Bob 9999) sB Hi Hwf I).
Defined.

(** A store whose next id is the last [u32]. *)
Definition sE : St := mkState ∅ (2 ^ asset_id_bits - 1) ∅ [].

Lemma issue_exhaustion_witness :
  sE.(NextAssetId) = 2 ^ asset_id_bits - 1 /\
  spec_issue Alice 5 sE = inl SpecIdSpaceExhausted /\
  (issue (Signed Alice) 5 sE).2 = Ok tt /\ (issue (Signed Alice) 5 sE).1.(NextAssetId) = 0.
Proof.
  assert (Hn : sE.(NextAssetId) = 2 ^ asset_id_bits - 1) by reflexivity.
  split; [exact Hn | exact (issue_exhaustion Alice 5 sE Hn)].
Defined.

(** ** Witnesses for blocks *)

(** A block after B: Bob destroys his holding, then Carol issues. *)
Definition blockG : list (Extrinsic (Source:=nat)) :=
  [(Signed Bob, Call_destroy 0); (Signed Carol, Call_issue 50)].

Lemma extrinsics_commute_witness :
  call_fp (Signed Alice) (Call_transfer 0 Carol 100) = Some (transfer_fp 0 Alice Carol) /\
  call_fp (Signed Bob) (Call_destroy (Source:=nat) 0) = Some (destroy_fp 0 Bob) /\
  disjoint_fp (transfer_fp 0 Alice Carol) (destroy_fp 0 Bob) /\
  (apply_extrinsics [(Signed Alice, Call_transfer 0 Carol 100); (Signed Bob, Call_destroy 0)] sB).1
    .(TotalSupply) ≡ₛ
  (apply_extrinsics [(Signed Bob, Call_destroy 0); (Signed Alice, Call_transfer 0 Carol 100)] sB).1
    .(TotalSupply).
Proof.
  assert (H1 : call_fp (Signed Alice) (Call_transfer 0 Carol 100) = Some (transfer_fp 0 Alice Carol))
    by reflexivity.
  assert (H2 : call_fp (Signed Bob) (Call_destroy (Source:=nat) 0) = Some (destroy_fp 0 Bob))
    by reflexivity.
  assert (D : disjoint_fp (transfer_fp 0 Alice Carol) (destroy_fp 0 Bob))
    by (apply (bool_decide_unpack _); vm_compute; reflexivity).
  split; [exact H1|]. split; [exact H2|]. split; [exact D|].
  exact (proj1 (proj2 (proj2 (proj2 (extrinsics_commute _ _ _ _ _ _ sB H1 H2 D))))).
Defined.

(** After B, Alice sends 100 more to Bob. *)
Definition runR := transfer (Signed Alice) 0 (Bob : nat) 100 sB.

Lemma transfer_roundtrip_witness :
  safe_reachable sB /\ lookup (Bob : nat) = Some Bob /\ lookup (Alice : nat) = Some Alice /\
  runR = (runR.1, Ok tt) /\
  exists s2, transfer (Signed Bob) 0 (Alice : nat) 100 runR.1 = (s2, Ok tt) /\
    s2.(Balances) ≡ₛ sB.(Balances) /\ s2.(TotalSupply) = sB.(TotalSupply) /\
    s2.(NextAssetId) = sB.(NextAssetId) /\
    s2.(events) = sB.(events) ++ [Transferred 0 Alice Bob 100; Transferred 0 Bob Alice 100].
Proof.
  assert (Hr : safe_reachable sB) by reach.
  assert (Hl1 : lookup (Bob : nat) = Some Bob) by reflexivity.
  assert (Hl2 : lookup (Alice : nat) = Some Alice) by reflexivity.
  assert (Hrun : runR = (runR.1, Ok tt)) by (vm_compute; reflexivity).
  split; [exact Hr|]. split; [exact Hl1|]. split; [exact Hl2|]. split; [exact Hrun|].
  exact (transfer_roundtrip sB Alice Bob 0 Bob Alice 100 runR.1 Hr ltac:(lia) Hl1 Hl2 Hrun).
Defined.

Lemma supply_can_be_burned_witness :
  safe_reachable sB /\ 0 <= 0 < 2 ^ asset_id_bits /\
  total_supply (apply_extrinsics (burn_block sB 0) sB).1 0 = 0.
Proof.
  assert (Hr : safe_reachable sB) by reach.
  assert (Hid : 0 <= 0 < 2 ^ asset_id_bits) by (vm_compute; split; [intros ?; discriminate | reflexivity]).
  split; [exact Hr|]. split; [exact Hid|].
  exact (proj1 (proj2 (supply_can_be_burned sB 0 Hr Hid))).
Defined.

Lemma block_refines_witness :
  inv sB /\ ledger_equiv sB sB /\ Forall (fun x => wf_call x.2 = true) blockG /\
  sB.(NextAssetId) + count_issues blockG < 2 ^ asset_id_bits /\
  ledger_equiv (apply_extrinsics blockG sB).1 (spec_run blockG sB).1.
Proof.
  assert (Hi : inv sB) by (apply safe_reachable_inv; reach).
  assert (E : ledger_equiv sB sB) by apply ledger_equiv_refl.
  assert (Hwf : Forall (fun x => wf_call x.2 = true) blockG)
    by (repeat constructor; vm_compute; reflexivity).
  assert (Hn : sB.(NextAssetId) + count_issues blockG < 2 ^ asset_id_bits)
    by (vm_compute; reflexivity).
  split; [exact Hi|]. split; [exact E|]. split; [exact Hwf|]. split; [exact Hn|].
  exact (proj1 (block_refines blockG sB sB Hi E Hwf Hn)).
Defined.

(** ** Witnesses for the debug build *)

Lemma typed_sE : typed sE.
Proof. split; [done | done | vm_compute; split; [intros ?; discriminate | reflexivity]]. Qed.

(** At the last [u32] id the debug build panics where the release build wraps. *)
Lemma dispatch_checked_run_witness :
  typed sE /\ wf_call (Call_issue (Source:=nat) 5) = true /\
  dispatch_checked (Signed Alice) (Call_issue 5) sE =
    if panics (Signed Alice) (Call_issue 5) sE then None
    else Some (dispatch (Signed Alice) (Call_issue 5) sE).
Proof.
  assert (Hwf : wf_call (Call_issue (Source:=nat) 5) = true) by reflexivity.
  split; [exact typed_sE|]. split; [exact Hwf|].
  exact (dispatch_checked_run sE (Signed Alice) _ typed_sE Hwf).
Defined.

Lemma issue_checked_panics_iff_witness :
  typed sE /\
  (dispatch_checked (Source:=nat) (Signed Alice) (Call_issue 5) sE = None <->
   sE.(NextAssetId) = 2 ^ asset_id_bits - 1).
Proof. split; [exact typed_sE | exact (issue_checked_panics_iff sE Alice 5 typed_sE)]. Defined.

Lemma debug_build_never_panics_witness :
  safe_reachable sB /\ wf_call (Call_transfer 0 Bob 100) = true /\
  id_available sB (Call_transfer 0 Bob 100) /\
  dispatch_checked (Signed Alice) (Call_transfer 0 Bob 100) sB =
    Some (dispatch (Signed Alice) (Call_transfer 0 Bob 100) sB).
Proof.
  assert (Hr : safe_reachable sB) by reach.
  assert (Hwf : wf_call (Call_transfer 0 Bob 100) = true) by reflexivity.
  split; [exact Hr|]. split; [exact Hwf|]. split; [exact I|].
  exact (debug_build_never_panics sB (Signed Alice) _ Hr Hwf I).
Defined.

(** ** Witnesses for the issue round trip and its ordering *)

Lemma issue_destroy_roundtrip_witness :
  safe_reachable sB /\ 0 <= 50 < 2 ^ balance_bits /\ sB.(NextAssetId) + 1 < 2 ^ asset_id_bits /\
  (destroy (Signed Carol) sB.(NextAssetId) (issue (Signed Carol) 50 sB).1).1.(Balances) ≡ₛ
    sB.(Balances).
Proof.
  assert (Hr : safe_reachable sB) by reach.
  assert (Ht : 0 <= 50 < 2 ^ balance_bits) by (vm_compute; split; [intros ?; discriminate | reflexivity]).
  assert (Hn : sB.(NextAssetId) + 1 < 2 ^ asset_id_bits) by (vm_compute; reflexivity).
  split; [exact Hr|]. split; [exact Ht|]. split; [exact Hn|].
  exact (proj1 (issue_destroy_roundtrip sB Carol 50 Hr Ht Hn)).
Defined.

Lemma issue_commutes_witness :
  call_fp (Signed Alice) (Call_transfer 0 Bob 100) = Some (transfer_fp 0 Alice Bob) /\
  (sB.(NextAssetId), Carol) ∉ fp_bal (transfer_fp 0 Alice Bob) /\
  sB.(NextAssetId) ∉ fp_sup (transfer_fp 0 Alice Bob) /\
  (dispatch (Signed Alice) (Call_transfer 0 Bob 100) (issue (Signed Carol) 50 sB).1).2 =
    (dispatch (Signed Alice) (Call_transfer 0 Bob 100) sB).2.
Proof.
  assert (Hc : call_fp (Signed Alice) (Call_transfer 0 Bob 100) = Some (transfer_fp 0 Alice Bob))
    by reflexivity.
  assert (Hb : (sB.(NextAssetId), Carol) ∉ fp_bal (transfer_fp 0 Alice Bob))
    by (apply (bool_decide_unpack _); vm_compute; reflexivity).
  assert (Hs : sB.(NextAssetId) ∉ fp_sup (transfer_fp 0 Alice Bob))
    by (apply (bool_decide_unpack _); vm_compute; reflexivity).
  split; [exact Hc|]. split; [exact Hb|]. split; [exact Hs|].
  exact (proj1 (issue_commutes Carol 50 _ _ _ sB Hc Hb Hs)).
Defined.

(** ** Witnesses for the event log and debug-build blocks *)

Lemma log_reconstructs_ledger_witness :
  safe_reachable sB /\
  balance sB 0 Bob = balance_from_log sB.(events) 0 Bob /\
  total_supply sB 0 = supply_from_log sB.(events) 0.
Proof.
  assert (Hr : safe_reachable sB) by reach.
  split; [exact Hr | exact (log_reconstructs_ledger sB 0 Bob Hr)].
Defined.

Lemma debug_block_agrees_witness :
  safe_reachable sB /\ Forall (fun x => wf_call x.2 = true) blockG /\
  sB.(NextAssetId) + count_issues blockG < 2 ^ asset_id_bits /\
  apply_extrinsics_checked blockG sB = Some (apply_extrinsics blockG sB).
Proof.
  assert (Hr : safe_reachable sB) by reach.
  assert (Hwf : Forall (fun x => wf_call x.2 = true) blockG)
    by (repeat constructor; vm_compute; reflexivity).
  assert (Hn : sB.(NextAssetId) + count_issues blockG < 2 ^ asset_id_bits)
    by (vm_compute; reflexivity).
  split; [exact Hr|]. split; [exact Hwf|]. split; [exact Hn|].
  exact (debug_block_agrees blockG sB Hr Hwf Hn).
Defined.


